(** * Heredity: exact inference by enumeration (L2Uncertainty/heredity/heredity.py)

    A shallow embedding of [heredity.py]: the probability tables [PROBS],
    [load_data] from the rows of the CSV reader on, [powerset], the
    enumeration loop of [main], [joint_probability], [update_trait], [update]
    and [normalize]; and of [transition_model] of
    L2Uncertainty/pagerank/test.py.

    Conventions of the embedding.
    - Python floats are idealised as exact rationals [Q]; equalities between
      probabilities are stated up to [==] ([Qeq]) unless the two sides are
      syntactically the same quotient.
    - A Python [set] of names is a [gset string]; a [dict] keyed by names is a
      [gmap string _].  Iterating a set or a dict is a left fold over
      [elements] / [map_to_list]: Python leaves the order of a set
      unspecified, the embedding fixes one.
    - A Python exception is a value [Raise e] of the [result] monad.
    - Opening and parsing the CSV file ([csv.DictReader]) and printing are
      outside the embedding: the pipeline starts from the rows of the reader,
      or from the [people] dictionary. *)

From Stdlib Require Import QArith Qpower Lqa.
From stdpp Require Import gmap strings list fin_maps fin_sets sorting.

Open Scope Q_scope.
Open Scope string_scope.

(** ** Exceptions *)

Inductive exn : Type :=
  | KeyError (key : string)
  | ZeroDivisionError.

Inductive result (A : Type) : Type :=
  | Ok (a : A)
  | Raise (e : exn).
Arguments Ok {A} a.
Arguments Raise {A} e.

#[global] Instance result_ret : MRet result := fun A a => Ok a.

#[global] Instance result_bind : MBind result := fun A B k r =>
  match r with
  | Ok a => k a
  | Raise e => Raise e
  end.

(** [x / y] on Python numbers: a zero divisor raises. *)
Definition py_div (x y : Q) : result Q :=
  if Qeq_bool y 0 then Raise ZeroDivisionError else Ok (x / y).

(** ** Probability tables *)

(** The keys [0], [1], [2] of [PROBS["gene"]] and [PROBS["trait"]]. *)
Inductive copies : Type := Zero | One | Two.

(** [PROBS["gene"][k]] *)
Definition PROBS_gene (k : copies) : Q :=
  match k with
  | Two => 0.01
  | One => 0.03
  | Zero => 0.96
  end.

(** [PROBS["trait"][k][b]] *)
Definition PROBS_trait (k : copies) (b : bool) : Q :=
  match k, b with
  | Two, true => 0.65
  | Two, false => 0.35
  | One, true => 0.56
  | One, false => 0.44
  | Zero, true => 0.01
  | Zero, false => 0.99
  end.

(** [PROBS["mutation"]] *)
Definition PROBS_mutation : Q := 0.01.

(** ** Data model *)

(** One row of the dictionary built by [load_data]. *)
Record Person : Type := {
  name : string;
  mother : option string;
  father : option string;
  trait : option bool
}.

(** [probabilities[person]["gene"]], keys [2], [1], [0]. *)
Record GeneDist : Type := { gene2 : Q; gene1 : Q; gene0 : Q }.

(** [probabilities[person]["trait"]], keys [True], [False]. *)
Record TraitDist : Type := { traitT : Q; traitF : Q }.

Record Entry : Type := { gene : GeneDist; trait_ : TraitDist }.

Definition get_gene (k : copies) (d : GeneDist) : Q :=
  match k with
  | Two => gene2 d
  | One => gene1 d
  | Zero => gene0 d
  end.

Definition set_gene (k : copies) (v : Q) (d : GeneDist) : GeneDist :=
  match k with
  | Two => {| gene2 := v; gene1 := gene1 d; gene0 := gene0 d |}
  | One => {| gene2 := gene2 d; gene1 := v; gene0 := gene0 d |}
  | Zero => {| gene2 := gene2 d; gene1 := gene1 d; gene0 := v |}
  end.

Definition get_trait (b : bool) (d : TraitDist) : Q :=
  if b then traitT d else traitF d.

Definition set_trait (b : bool) (v : Q) (d : TraitDist) : TraitDist :=
  if b then {| traitT := v; traitF := traitF d |}
  else {| traitT := traitT d; traitF := v |}.

(** The entry [main] creates for every person: all five buckets are [0]. *)
Definition zero_entry : Entry :=
  {| gene := {| gene2 := 0; gene1 := 0; gene0 := 0 |};
     trait_ := {| traitT := 0; traitF := 0 |} |}.

(** ** [powerset] *)

(** [itertools.combinations(s, r)]: the [r]-element subsequences of [s], in
    lexicographic order of positions. *)
Fixpoint combinations {A} (s : list A) (r : nat) : list (list A) :=
  match r with
  | O => [[]]
  | S r' =>
      match s with
      | [] => []
      | x :: s' => (cons x <$> combinations s' r') ++ combinations s' r
      end
  end.

(** [powerset(s)]: [s = list(s)], then the chain of [combinations(s, r)] for
    [r] in [range(len(s) + 1)], each turned back into a set. *)
Definition powerset (s : gset string) : list (gset string) :=
  let l := elements s in
  list_to_set <$> mjoin (combinations l <$> seq 0 (length l + 1)).

(** ** [joint_probability] *)

(** One pass of [for child in people.keys()]: the factor
    [PROBS["gene"][0] * PROBS["trait"][0][False]] for a child that is in none
    of the three sets. *)
Definition joint_step (one_gene two_genes have_trait : gset string)
    (acc : Q) (child : string) : Q :=
  if decide (child ∉ one_gene ∪ two_genes ∪ have_trait)
  then acc * (PROBS_gene Zero * PROBS_trait Zero false)
  else acc.

Definition joint_probability (people : gmap string Person)
    (one_gene two_genes have_trait : gset string) : Q :=
  let entire_joint_probability := 1 in
  let children_to_check := (map_to_list people).*1 in
  let entire_joint_probability :=
    foldl (joint_step one_gene two_genes have_trait)
      entire_joint_probability children_to_check in
  let entire_joint_probability :=
    foldl (fun acc _ => acc * (PROBS_gene Two * PROBS_trait Two true))
      entire_joint_probability (elements two_genes) in
  let entire_joint_probability :=
    foldl (fun acc _ =>
             acc * (((1 - PROBS_mutation) * (1 - PROBS_mutation)
                     + PROBS_mutation * PROBS_mutation)
                    * PROBS_trait One false))
      entire_joint_probability (elements one_gene) in
  entire_joint_probability.

(** ** [update_trait] and [update] *)

Definition update_trait (num_of_copies : copies) (logic_sign : bool) (p : Q) : Q :=
  PROBS_trait num_of_copies logic_sign + p.

(** The body shared by the three loops of [update], for copy count [k]:
    [probabilities[child]["gene"][k] = PROBS["gene"][k] + p], then the
    assignment to [probabilities[child]["trait"][child in have_trait]].
    [probabilities[child]] raises [KeyError] for an unknown child. *)
Definition update_child (k : copies) (have_trait : gset string) (p : Q)
    (probabilities : gmap string Entry) (child : string)
    : result (gmap string Entry) :=
  match probabilities !! child with
  | None => Raise (KeyError child)
  | Some e =>
      let g := set_gene k (PROBS_gene k + p) (gene e) in
      let b := bool_decide (child ∈ have_trait) in
      let t := set_trait b (update_trait k b p) (trait_ e) in
      Ok (<[child := {| gene := g; trait_ := t |}]> probabilities)
  end.

(** A [for] loop over [l] whose body may raise: the first exception ends
    the loop and propagates. *)
Fixpoint for_each {A S} (body : S -> A -> result S) (l : list A) (s : S)
    : result S :=
  match l with
  | [] => Ok s
  | x :: l' => (s' ← body s x; for_each body l' s')
  end.

Definition update (probabilities : gmap string Entry)
    (one_gene two_genes have_trait : gset string) (p : Q)
    : result (gmap string Entry) :=
  probabilities ←
    for_each (update_child One have_trait p) (elements one_gene) probabilities;
  probabilities ←
    for_each (update_child Two have_trait p) (elements two_genes) probabilities;
  let children_to_check := (map_to_list probabilities).*1 in
  for_each
    (fun probabilities child =>
       if decide (child ∉ one_gene ∪ two_genes ∪ have_trait)
       then update_child Zero have_trait p probabilities child
       else Ok probabilities)
    children_to_check probabilities.

(** ** [normalize] *)

(** [sum(probabilities[child]["gene"].values())] *)
Definition total_gene (e : Entry) : Q :=
  0 + gene2 (gene e) + gene1 (gene e) + gene0 (gene e).

(** [sum(probabilities[child]["trait"].values())] *)
Definition total_trait (e : Entry) : Q :=
  0 + traitT (trait_ e) + traitF (trait_ e).

(** The body of the loop of [normalize] for one child.  [enumerate] yields
    the indices [0], [1], [2] for the gene dictionary, which are its keys;
    for the trait dictionary it yields [0] and [1], and as dictionary keys
    [0] is [False] and [1] is [True]. *)
Definition normalize_entry (e : Entry) : result Entry :=
  let total := total_gene e in
  a0 ← py_div (gene0 (gene e)) total;
  a1 ← py_div (gene1 (gene e)) total;
  a2 ← py_div (gene2 (gene e)) total;
  let total := total_trait e in
  t0 ← py_div (traitF (trait_ e)) total;
  t1 ← py_div (traitT (trait_ e)) total;
  Ok {| gene := {| gene2 := a2; gene1 := a1; gene0 := a0 |};
        trait_ := {| traitT := t1; traitF := t0 |} |}.

Definition normalize_child (probabilities : gmap string Entry) (child : string)
    : result (gmap string Entry) :=
  match probabilities !! child with
  | None => Raise (KeyError child)
  | Some e =>
      (e' ← normalize_entry e;
       Ok (<[child := e']> probabilities))
  end.

Definition normalize (probabilities : gmap string Entry)
    : result (gmap string Entry) :=
  for_each normalize_child (map_to_list probabilities).*1 probabilities.

(** The entry whose five buckets are those of [e], each divided by the sum
    of its distribution. *)
Definition quotients (e : Entry) : Entry :=
  {| gene := {| gene2 := gene2 (gene e) / total_gene e;
                gene1 := gene1 (gene e) / total_gene e;
                gene0 := gene0 (gene e) / total_gene e |};
     trait_ := {| traitT := traitT (trait_ e) / total_trait e;
                  traitF := traitF (trait_ e) / total_trait e |} |}.

(** ** [main] *)

(** The [any(...)] of [main]: some person with a known trait is assigned the
    other value by [have_trait].  [names] is [set(people)], so the lookup
    [people[person]] always succeeds. *)
Definition fails_evidence (people : gmap string Person)
    (names have_trait : gset string) : bool :=
  existsb
    (fun person =>
       match people !! person with
       | Some row =>
           match trait row with
           | Some t => negb (eqb t (bool_decide (person ∈ have_trait)))
           | None => false
           end
       | None => false
       end)
    (elements names).

(** A hypothesis, in the argument order of [joint_probability] and [update]:
    [(one_gene, two_genes, have_trait)]. *)
Definition hypothesis : Type := gset string * gset string * gset string.

(** The triples on which the body of the innermost loop of [main] runs, in
    order. *)
Definition hypotheses (people : gmap string Person) : list hypothesis :=
  let names := dom people in
  have_trait ← powerset names;
  if fails_evidence people names have_trait then []
  else
    one_gene ← powerset names;
    two_genes ← powerset (names ∖ one_gene);
    [(one_gene, two_genes, have_trait)].

Definition init_probabilities (people : gmap string Person)
    : gmap string Entry :=
  (fun _ => zero_entry) <$> people.

(** The innermost loop body of [main]. *)
Definition main_step (people : gmap string Person)
    (probabilities : gmap string Entry) (h : hypothesis)
    : result (gmap string Entry) :=
  let '(one_gene, two_genes, have_trait) := h in
  let p := joint_probability people one_gene two_genes have_trait in
  update probabilities one_gene two_genes have_trait p.

(** [main] from the loaded dictionary to the normalized table it prints. *)
Definition main (people : gmap string Person) : result (gmap string Entry) :=
  probabilities ←
    for_each (main_step people) (hypotheses people) (init_probabilities people);
  normalize probabilities.

(** ** The design of the specification, for comparison

    The joint probability as the specification describes it: founders take
    the population prior, children are conditioned on both parents. *)

(** [transmissionProbability(parentCopies)] *)
Definition spec_transmissionProbability (parent : copies) : Q :=
  match parent with
  | Two => 1 - PROBS_mutation
  | One => 0.5
  | Zero => PROBS_mutation
  end.

(** The copy count a hypothesis assigns to a person. *)
Definition spec_copies_of (one_gene two_genes : gset string) (person : string)
    : copies :=
  if decide (person ∈ two_genes) then Two
  else if decide (person ∈ one_gene) then One
  else Zero.

(** Probability of [target] copies given the two transmission probabilities. *)
Definition spec_inherit (target : copies) (transmit_mother transmit_father : Q) : Q :=
  match target with
  | Zero => (1 - transmit_mother) * (1 - transmit_father)
  | Two => transmit_mother * transmit_father
  | One => transmit_mother * (1 - transmit_father)
           + (1 - transmit_mother) * transmit_father
  end.

(** The genotype factor of one person. *)
Definition spec_genotype_factor (one_gene two_genes : gset string)
    (row : Person) : Q :=
  let target := spec_copies_of one_gene two_genes (name row) in
  match mother row, father row with
  | Some m, Some f =>
      spec_inherit target
        (spec_transmissionProbability (spec_copies_of one_gene two_genes m))
        (spec_transmissionProbability (spec_copies_of one_gene two_genes f))
  | _, _ => PROBS_gene target
  end.

(** The product over all persons of genotype factor times trait factor. *)
Definition spec_joint_probability (people : gmap string Person)
    (one_gene two_genes have_trait : gset string) : Q :=
  foldl
    (fun acc row =>
       acc * (spec_genotype_factor one_gene two_genes row
              * PROBS_trait (spec_copies_of one_gene two_genes (name row))
                  (bool_decide (name row ∈ have_trait))))
    1 (map_to_list people).*2.

(** ** Sample pedigrees *)

Definition founder (n : string) (t : option bool) : Person :=
  {| name := n; mother := None; father := None; trait := t |}.

Definition child_of (n m f : string) (t : option bool) : Person :=
  {| name := n; mother := Some m; father := Some f; trait := t |}.

(** The row with both parent fields blank. *)
Definition erase_parents (row : Person) : Person :=
  {| name := name row; mother := None; father := None; trait := trait row |}.

(** One founder, trait unknown. *)
Definition solo : gmap string Person :=
  {[ "Lily" := founder "Lily" None ]}.

(** Two founders and their child, no trait known. *)
Definition family : gmap string Person :=
  <[ "Harry" := child_of "Harry" "Lily" "James" None ]>
  (<[ "James" := founder "James" None ]>
   {[ "Lily" := founder "Lily" None ]}).

(** The mother and father of Harry are not rows of the table. *)
Definition dangling : gmap string Person :=
  {[ "Harry" := child_of "Harry" "Lily" "James" None ]}.

(** Each of the two persons is recorded as a parent of the other. *)
Definition cyclic : gmap string Person :=
  <[ "Ann" := child_of "Ann" "Bob" "Bob" None ]>
  {[ "Bob" := child_of "Bob" "Ann" "Ann" (Some true) ]}.

(** The bucket table of [solo] inside [main] after the first two hypotheses
    [({}, {}, {})] and [({}, {Lily}, {})]. *)
Definition solo_after_two : gmap string Entry :=
  {[ "Lily" := {| gene := {| gene2 := 0.0165; gene1 := 0; gene0 := 1.9104 |};
                  trait_ := {| traitT := 0; traitF := 0.3565 |} |} ]}.

(** Two entries hold the same five rationals. *)
Definition Entry_eq (e1 e2 : Entry) : Prop :=
  gene2 (gene e1) == gene2 (gene e2)
  /\ gene1 (gene e1) == gene1 (gene e2)
  /\ gene0 (gene e1) == gene0 (gene e2)
  /\ traitT (trait_ e1) == traitT (trait_ e2)
  /\ traitF (trait_ e1) == traitF (trait_ e2).

(** The entry of [person] in a table that was computed without exception. *)
Definition entry_of (r : result (gmap string Entry)) (person : string)
    : option Entry :=
  match r with
  | Ok probabilities => probabilities !! person
  | Raise _ => None
  end.

(** ** What [update] stores, entry by entry *)

(** The entry one pass of a loop body of [update] stores for [child], for
    copy count [k]. *)
Definition written (k : copies) (have_trait : gset string) (p : Q)
    (child : string) (e : Entry) : Entry :=
  let b := bool_decide (child ∈ have_trait) in
  {| gene := set_gene k (PROBS_gene k + p) (gene e);
     trait_ := set_trait b (update_trait k b p) (trait_ e) |}.

(** The three loops of [update] seen from one child: the write of the
    [one_gene] loop, then that of the [two_genes] loop, then that of the loop
    over all keys. *)
Definition updated_entry (one_gene two_genes have_trait : gset string) (p : Q)
    (child : string) (e : Entry) : Entry :=
  let e := if decide (child ∈ one_gene) then written One have_trait p child e
           else e in
  let e := if decide (child ∈ two_genes) then written Two have_trait p child e
           else e in
  if decide (child ∉ one_gene ∪ two_genes ∪ have_trait)
  then written Zero have_trait p child e
  else e.

(** ** Invariants of the bucket table inside [main] *)

(** No bucket of the entry is negative. *)
Definition nonneg_entry (e : Entry) : Prop :=
  0 <= gene2 (gene e) /\ 0 <= gene1 (gene e) /\ 0 <= gene0 (gene e)
  /\ 0 <= traitT (trait_ e) /\ 0 <= traitF (trait_ e).

(** The entry has been written for one copy at least once: no bucket is
    negative, the bucket [gene[1]] is positive and so is one trait bucket. *)
Definition settled_entry (e : Entry) : Prop :=
  nonneg_entry e /\ 0 < gene1 (gene e)
  /\ 0 < traitT (trait_ e) + traitF (trait_ e).

(** A table over the names [D] whose entries have no negative bucket, those
    of the names in [S] being settled. *)
Definition table_inv (D S : gset string) (t : gmap string Entry) : Prop :=
  dom t = D
  /\ forall child e, t !! child = Some e ->
       nonneg_entry e /\ (child ∈ S -> settled_entry e).

(** The persons whose trait is observed to be present. *)
Definition observed_with_trait (people : gmap string Person) : gset string :=
  dom (filter (fun kv => trait kv.2 = Some true) people).

(** ** [load_data]

    [csv.DictReader] is taken as given: it hands [load_data] the rows of the
    file in order, each with the text of the columns [name], [mother],
    [father] and [trait]. *)

Record CsvRow : Type := {
  csv_name : string;
  csv_mother : string;
  csv_father : string;
  csv_trait : string
}.

(** [text or None]: the empty string is falsy. *)
Definition or_None (text : string) : option string :=
  if decide (text = "") then None else Some text.

(** [True if text == "1" else False if text == "0" else None] *)
Definition trait_of_text (text : string) : option bool :=
  if decide (text = "1") then Some true
  else if decide (text = "0") then Some false
  else None.

(** The dictionary stored for one row. *)
Definition person_of_row (row : CsvRow) : Person :=
  {| name := csv_name row;
     mother := or_None (csv_mother row);
     father := or_None (csv_father row);
     trait := trait_of_text (csv_trait row) |}.

(** [load_data], from the rows of the reader on: [data[name] = {...}] for
    every row in turn. *)
Definition load_data (rows : list CsvRow) : gmap string Person :=
  let data := ∅ in
  foldl (fun data row => <[csv_name row := person_of_row row]> data) data rows.

(** ** [transition_model] (L2Uncertainty/pagerank/test.py)

    The corpus maps every page to the set of pages it links to. *)

(** A Python [int] read as a number. *)
Definition of_int (n : nat) : Q := inject_Z (Z.of_nat n).

(** The body of [for link in corpus[page]]:
    [prob_distribution[link] += link_prob]. *)
Definition add_link (link_prob : Q) (prob_distribution : gmap string Q)
    (link : string) : result (gmap string Q) :=
  match prob_distribution !! link with
  | None => Raise (KeyError link)
  | Some v => Ok (<[link := v + link_prob]> prob_distribution)
  end.

Definition transition_model (corpus : gmap string (gset string))
    (page : string) (damping_factor : Q) : result (gmap string Q) :=
  let num_pages_corpus := size corpus in
  match corpus !! page with
  | None => Raise (KeyError page)
  | Some links =>
      let num_links_page := size links in
      (inv_links ← py_div 1 (of_int num_links_page);
       let link_prob := damping_factor * inv_links in
       inv_pages ← py_div 1 (of_int num_pages_corpus);
       let rand_page_prob := (1 - damping_factor) * inv_pages in
       let prob_distribution :=
         foldl (fun d p => <[p := rand_page_prob]> d) ∅
           (map_to_list corpus).*1 in
       for_each (add_link link_prob) (elements links) prob_distribution)
  end.

(** The sum of a list of numbers, and of the values of a distribution. *)
Definition Qsum (l : list Q) : Q := foldr Qplus 0 l.

Definition total_probability (d : gmap string Q) : Q :=
  Qsum (map_to_list d).*2.

(** The corpus of the example run at the end of the file. *)
Definition example_corpus : gmap string (gset string) :=
  <[ "4.html" := {["2.html"]} ]>
  (<[ "2.html" := {["3.html"]} ∪ {["1.html"]} ]>
   (<[ "1.html" := {["2.html"]} ]>
    {[ "3.html" := {["2.html"]} ∪ {["4.html"]} ]})).

(** ** Statement-side measures of normalization

    The sums below are written out bucket by bucket; they do not go through
    [total_gene] and [total_trait], the sums [normalize] itself computes. *)

(** Neither the gene buckets nor the trait buckets of the entry sum to zero. *)
Definition sums_nonzero (e : Entry) : Prop :=
  ~ gene2 (gene e) + gene1 (gene e) + gene0 (gene e) == 0
  /\ ~ traitT (trait_ e) + traitF (trait_ e) == 0.

(** The gene buckets of [e'] are those of [e] divided by the sum of the three
    gene buckets of [e]. *)
Definition gene_divided (e e' : Entry) : Prop :=
  gene0 (gene e')
  == gene0 (gene e) / (gene2 (gene e) + gene1 (gene e) + gene0 (gene e))
  /\ gene1 (gene e')
     == gene1 (gene e) / (gene2 (gene e) + gene1 (gene e) + gene0 (gene e))
  /\ gene2 (gene e')
     == gene2 (gene e) / (gene2 (gene e) + gene1 (gene e) + gene0 (gene e)).

(** Every bucket of [e'] is the bucket of [e] divided by the sum of its
    distribution in [e], and each distribution of [e'] sums to [1]. *)
Definition divided_by_its_sums (e e' : Entry) : Prop :=
  gene_divided e e'
  /\ traitF (trait_ e')
     == traitF (trait_ e) / (traitT (trait_ e) + traitF (trait_ e))
  /\ traitT (trait_ e')
     == traitT (trait_ e) / (traitT (trait_ e) + traitF (trait_ e))
  /\ gene2 (gene e') + gene1 (gene e') + gene0 (gene e') == 1
  /\ traitT (trait_ e') + traitF (trait_ e') == 1.

(** ** [normalize] on one entry, in place

    [normalize] divides the buckets of the dictionaries in place, one
    assignment after the other: what has been divided when a division raises
    stays divided.  [in_place] runs assignments in order and returns the
    state as the first exception, if any, leaves it. *)

Fixpoint in_place {S} (steps : list (S -> result S)) (s : S) : S * option exn :=
  match steps with
  | [] => (s, None)
  | step :: steps' =>
      match step s with
      | Ok s' => in_place steps' s'
      | Raise x => (s, Some x)
      end
  end.

(** [probabilities[child]["gene"][idx] /= total_gene] *)
Definition divide_gene (k : copies) (total : Q) (e : Entry) : result Entry :=
  v ← py_div (get_gene k (gene e)) total;
  Ok {| gene := set_gene k v (gene e); trait_ := trait_ e |}.

(** [probabilities[child]["trait"][idx] /= total_trait] *)
Definition divide_trait (b : bool) (total : Q) (e : Entry) : result Entry :=
  v ← py_div (get_trait b (trait_ e)) total;
  Ok {| gene := gene e; trait_ := set_trait b v (trait_ e) |}.

(** The body of the loop of [normalize] on the entry of one child: the sum
    of the gene buckets, the three divisions for the indices [0], [1], [2],
    then the sum of the trait buckets and the two divisions for the indices
    [0] ([False]) and [1] ([True]). *)
Definition normalize_entry_in_place (e : Entry) : Entry * option exn :=
  let total := total_gene e in
  match in_place [divide_gene Zero total; divide_gene One total;
                  divide_gene Two total] e with
  | (e1, Some x) => (e1, Some x)
  | (e1, None) =>
      let total := total_trait e1 in
      in_place [divide_trait false total; divide_trait true total] e1
  end.


(** * Theorems *)

(** ** Concrete runs *)

Example hypotheses_solo :
  hypotheses solo =
    [ (∅, ∅, ∅); (∅, {["Lily"]}, ∅); ({["Lily"]}, ∅, ∅);
      (∅, ∅, {["Lily"]}); (∅, {["Lily"]}, {["Lily"]});
      ({["Lily"]}, ∅, {["Lily"]}) ].
Proof. vm_compute. reflexivity. Qed.

Example solo_after_two_reached :
  exists e0 e,
    solo_after_two !! "Lily" = Some e0
    /\ entry_of (for_each (main_step solo) (take 2 (hypotheses solo))
                  (init_probabilities solo)) "Lily" = Some e
    /\ Entry_eq e e0.
Proof.
  eexists _, _. split; [reflexivity|]. split; [vm_compute; reflexivity|].
  vm_compute. repeat split.
Qed.

Example spec_joint_family :
  spec_joint_probability family ∅ {["Lily"]} ∅
  == (0.01 * 0.35) * (0.96 * 0.99) * ((0.01 * 0.99) * 0.99)
  /\ ~ joint_probability family ∅ {["Lily"]} ∅
       == spec_joint_probability family ∅ {["Lily"]} ∅.
Proof.
  split.
  - vm_compute. reflexivity.
  - intros H. vm_compute in H. discriminate H.
Qed.

(** ** The joint evaluator on founders and children (C1) *)

(** C1. The claim: a founder's genotype factor is the prior [genePrior(c)],
    and a child's is computed from the parents' transmission probabilities.
    The code at a single founder hypothesised to carry one copy: the joint
    probability is [((1-m)^2 + m^2) * 0.44 = 0.431288], while the prior
    times the trait factor is [0.03 * 0.44]; and for the child Harry of two
    parents hypothesised to carry two copies each, hypothesised to carry
    none, the code returns [0.9504 * 0.0065 * 0.0065], a flat constant per
    person, while the parent-conditioned design has the factor
    [mutation^2] for him. *)
Theorem joint_probability_flat_constants :
  joint_probability solo {["Lily"]} ∅ ∅ == 0.431288
  /\ spec_joint_probability solo {["Lily"]} ∅ ∅
     == PROBS_gene One * PROBS_trait One false
  /\ ~ joint_probability solo {["Lily"]} ∅ ∅
       == PROBS_gene One * PROBS_trait One false
  /\ joint_probability family ∅ ({["Lily"]} ∪ {["James"]}) ∅
     == (0.96 * 0.99) * (0.01 * 0.65) * (0.01 * 0.65)
  /\ spec_joint_probability family ∅ ({["Lily"]} ∪ {["James"]}) ∅
     == (PROBS_mutation * PROBS_mutation * 0.99) * (0.01 * 0.35) * (0.01 * 0.35)
  /\ ~ joint_probability family ∅ ({["Lily"]} ∪ {["James"]}) ∅
       == spec_joint_probability family ∅ ({["Lily"]} ∪ {["James"]}) ∅.
Proof.
  repeat split;
    try (vm_compute; reflexivity);
    intros H; vm_compute in H; discriminate H.
Qed.

(** ** The accumulator on one table (C2) *)

(** C2. The claim: [update] adds [p] to one gene bucket and one trait bucket
    of every person.  The code on the table [solo_after_two], which [main]
    reaches: with Lily in [one_gene] and [p = 0.431288] the bucket
    [gene[1]] becomes [PROBS["gene"][1] + p = 0.461288] and [trait[False]]
    becomes [PROBS["trait"][1][False] + p = 0.871288], whatever they held
    ([0] and [0.3565]); with Lily in [have_trait] only, she is skipped and
    the table is returned as it was. *)
Theorem update_overwrites_and_skips :
  (exists e,
     entry_of (update solo_after_two {["Lily"]} ∅ ∅ 0.431288) "Lily" = Some e
     /\ gene1 (gene e) == 0.03 + 0.431288
     /\ ~ gene1 (gene e) == 0 + 0.431288
     /\ traitF (trait_ e) == 0.44 + 0.431288
     /\ ~ traitF (trait_ e) == 0.3565 + 0.431288)
  /\ update solo_after_two ∅ ∅ {["Lily"]} 1 = Ok solo_after_two.
Proof.
  split.
  - eexists. split; [vm_compute; reflexivity|].
    repeat split;
      try (vm_compute; reflexivity);
      intros H; vm_compute in H; discriminate H.
  - vm_compute. reflexivity.
Qed.

(** ** The whole pipeline on one founder (C3) *)

(** C3. The claim: a founder without evidence gets the prior
    [{0: 0.96, 1: 0.03, 2: 0.01}].  The code on the pedigree of the single
    founder Lily, trait unknown: the normalized gene distribution is
    [{0: 1.9104/2.388188, 1: 0.461288/2.388188, 2: 0.0165/2.388188}]. *)
Theorem main_solo_not_prior :
  exists e,
    entry_of (main solo) "Lily" = Some e
    /\ gene0 (gene e) == 1.9104 / 2.388188
    /\ gene1 (gene e) == 0.461288 / 2.388188
    /\ gene2 (gene e) == 0.0165 / 2.388188
    /\ ~ gene0 (gene e) == PROBS_gene Zero
    /\ ~ gene1 (gene e) == PROBS_gene One
    /\ ~ gene2 (gene e) == PROBS_gene Two.
Proof.
  eexists. split; [vm_compute; reflexivity|].
  repeat split;
    try (vm_compute; reflexivity);
    intros H; vm_compute in H; discriminate H.
Qed.

(** ** Malformed pedigrees (C10) *)

(** C10, as stated, fails: a pedigree with a dangling parent reference and
    one with a parent cycle both run to a normalized table; no exception is
    raised. *)
Lemma main_accepts_malformed :
  (exists t, main dangling = Ok t) /\ (forall e, main dangling <> Raise e)
  /\ (exists t, main cyclic = Ok t) /\ (forall e, main cyclic <> Raise e).
Proof.
  assert (Hd : exists t, main dangling = Ok t)
    by (eexists; vm_compute; reflexivity).
  assert (Hc : exists t, main cyclic = Ok t)
    by (eexists; vm_compute; reflexivity).
  split; [exact Hd|]. split.
  - destruct Hd as [t Ht]. intros e He. rewrite Ht in He. discriminate He.
  - split; [exact Hc|].
    destruct Hc as [t Ht]. intros e He. rewrite Ht in He. discriminate He.
Qed.

(** ** Range and totality of the joint evaluator (C8) *)

Section JointBounds.

Lemma factor_zero_range :
  0 <= PROBS_gene Zero * PROBS_trait Zero false <= 1.
Proof. vm_compute. split; discriminate. Qed.

Lemma factor_two_range :
  0 <= PROBS_gene Two * PROBS_trait Two true <= 1.
Proof. vm_compute. split; discriminate. Qed.

Lemma factor_one_range :
  0 <= ((1 - PROBS_mutation) * (1 - PROBS_mutation)
        + PROBS_mutation * PROBS_mutation) * PROBS_trait One false <= 1.
Proof. vm_compute. split; discriminate. Qed.

Lemma unit_interval_mult (a c : Q) :
  0 <= a <= 1 -> 0 <= c <= 1 -> 0 <= a * c <= 1.
Proof. intros [Ha0 Ha1] [Hc0 Hc1]. split; nra. Qed.

Lemma foldl_const_factor_range {A} (c : Q) (l : list A) :
  0 <= c <= 1 ->
  forall acc, 0 <= acc <= 1 ->
    0 <= foldl (fun acc _ => acc * c) acc l <= 1.
Proof.
  intros Hc. induction l as [|x l IH]; intros acc Hacc; simpl.
  - exact Hacc.
  - apply IH. apply unit_interval_mult; assumption.
Qed.

Lemma foldl_joint_step_range (one_gene two_genes have_trait : gset string)
    (l : list string) :
  forall acc, 0 <= acc <= 1 ->
    0 <= foldl (joint_step one_gene two_genes have_trait) acc l <= 1.
Proof.
  induction l as [|x l IH]; intros acc Hacc; simpl.
  - exact Hacc.
  - apply IH. unfold joint_step. case_decide.
    + apply unit_interval_mult; [assumption | apply factor_zero_range].
    + assumption.
Qed.

End JointBounds.

(** C8. [joint_probability] is a total function of its four arguments (no
    lookup, no division: nothing in it can raise), and for every pedigree
    and every three sets its value lies in the closed interval [[0,1]]. *)
Theorem joint_probability_in_unit_interval
    (people : gmap string Person) (one_gene two_genes have_trait : gset string) :
  0 <= joint_probability people one_gene two_genes have_trait <= 1.
Proof.
  unfold joint_probability.
  apply foldl_const_factor_range; [apply factor_one_range|].
  apply foldl_const_factor_range; [apply factor_two_range|].
  apply foldl_joint_step_range. split; discriminate.
Qed.

(** ** The joint evaluator reads the names only (C7) *)

Section JointNames.

Variables one_gene two_genes have_trait : gset string.

Lemma joint_step_swap (acc : Q) (x y : string) :
  joint_step one_gene two_genes have_trait
    (joint_step one_gene two_genes have_trait acc x) y
  = joint_step one_gene two_genes have_trait
      (joint_step one_gene two_genes have_trait acc y) x.
Proof. unfold joint_step. repeat case_decide; reflexivity. Qed.

Lemma foldl_joint_step_permutation (l1 l2 : list string) :
  l1 ≡ₚ l2 ->
  forall acc,
    foldl (joint_step one_gene two_genes have_trait) acc l1
    = foldl (joint_step one_gene two_genes have_trait) acc l2.
Proof.
  induction 1 as [|x l1 l2 _ IH|x y l|l1 l2 l3 _ IH1 _ IH2]; intros acc; simpl.
  - reflexivity.
  - apply IH.
  - rewrite joint_step_swap. reflexivity.
  - rewrite IH1. apply IH2.
Qed.

End JointNames.

Lemma keys_permutation {A B} (m1 : gmap string A) (m2 : gmap string B) :
  dom m1 = dom m2 -> (map_to_list m1).*1 ≡ₚ (map_to_list m2).*1.
Proof.
  intros Hdom.
  apply NoDup_Permutation; try apply NoDup_fst_map_to_list.
  intros k.
  assert (Hkeys : forall C (m : gmap string C),
             k ∈ (map_to_list m).*1 <-> k ∈ dom m).
  { intros C m. rewrite list_elem_of_fmap, elem_of_dom. split.
    - intros [[k' v] [-> Hin]]. apply elem_of_map_to_list in Hin. eauto.
    - intros [v Hv]. exists (k, v). split; [reflexivity|].
      apply elem_of_map_to_list. exact Hv. }
  rewrite !Hkeys, Hdom. reflexivity.
Qed.

(** C7. Two [people] dictionaries with the same key set give the same joint
    probability for every hypothesis: the rows (mother, father, observed
    trait) are never read. *)
Theorem joint_probability_reads_names_only
    (people1 people2 : gmap string Person)
    (one_gene two_genes have_trait : gset string) :
  dom people1 = dom people2 ->
  joint_probability people1 one_gene two_genes have_trait
  = joint_probability people2 one_gene two_genes have_trait.
Proof.
  intros Hdom. unfold joint_probability.
  rewrite (foldl_joint_step_permutation one_gene two_genes have_trait
             _ _ (keys_permutation people1 people2 Hdom)).
  reflexivity.
Qed.

Lemma joint_probability_reads_names_only_witness :
  dom dangling = dom (<["Harry" := founder "Harry" (Some true)]> ∅ : gmap string Person)
  /\ joint_probability dangling {["Harry"]} ∅ ∅
     = joint_probability (<["Harry" := founder "Harry" (Some true)]> ∅)
         {["Harry"]} ∅ ∅.
Proof.
  split.
  - vm_compute. reflexivity.
  - apply (joint_probability_reads_names_only dangling
             (<["Harry" := founder "Harry" (Some true)]> ∅)).
    vm_compute. reflexivity.
Defined.

(** Rewriting every row leaves the joint probability as it was. *)
Corollary joint_probability_fmap (f : Person -> Person)
    (people : gmap string Person) (one_gene two_genes have_trait : gset string) :
  joint_probability (f <$> people) one_gene two_genes have_trait
  = joint_probability people one_gene two_genes have_trait.
Proof.
  assert (Hdom : dom (f <$> people) = dom people) by apply dom_fmap_L.
  unfold joint_probability.
  rewrite (foldl_joint_step_permutation one_gene two_genes have_trait
             _ _ (keys_permutation (f <$> people) people Hdom)).
  reflexivity.
Qed.

(** ** [powerset] enumerates the subsets, each once (C5) *)

Section Powerset.

Close Scope Q_scope.

Lemma elem_of_combinations {A} (l : list A) :
  forall r k, k ∈ combinations l r <-> k `sublist_of` l /\ length k = r.
Proof.
  induction l as [|x l IH]; intros [|r] k; simpl.
  - rewrite list_elem_of_singleton, sublist_nil_r.
    split; [intros ->; done | tauto].
  - rewrite elem_of_nil, sublist_nil_r. split; [done|].
    intros [-> Hlen]. discriminate Hlen.
  - rewrite list_elem_of_singleton. split.
    + intros ->. split; [apply sublist_nil_l | done].
    + intros [_ Hlen]. by apply nil_length_inv.
  - rewrite elem_of_app, list_elem_of_fmap, sublist_cons_r, IH. split.
    + intros [(k' & -> & Hk') | [Hsub Hlen]].
      * apply IH in Hk' as [Hsub Hlen]. split.
        -- right. exists k'. done.
        -- simpl. by rewrite Hlen.
      * split; [by left | done].
    + intros [[Hsub | (k' & -> & Hsub)] Hlen].
      * right. done.
      * left. exists k'. split; [done|]. apply IH. simpl in Hlen. split; [done | lia].
Qed.

Lemma NoDup_combinations {A} (l : list A) :
  NoDup l -> forall r, NoDup (combinations l r).
Proof.
  induction 1 as [|x l Hx Hl IH]; intros [|r]; simpl.
  - apply NoDup_singleton.
  - constructor.
  - apply NoDup_singleton.
  - apply NoDup_app. split_and!.
    + apply NoDup_fmap; [|apply IH]. intros k1 k2 Heq. by simplify_eq.
    + intros k (k' & -> & _)%list_elem_of_fmap [Hsub _]%elem_of_combinations.
      apply Hx. apply (sublist_subseteq _ _ Hsub). left.
    + apply IH.
Qed.

(** The chain of [combinations(l, r)] over a range of sizes. *)
Lemma elem_of_chain {A} (l : list A) (a n : nat) (k : list A) :
  k ∈ mjoin (combinations l <$> seq a n)
  <-> k `sublist_of` l /\ a <= length k < a + n.
Proof.
  rewrite list_elem_of_join. split.
  - intros (ks & Hk & (r & -> & Hr)%list_elem_of_fmap).
    apply elem_of_combinations in Hk as [Hsub <-].
    apply elem_of_seq in Hr. done.
  - intros [Hsub Hlen]. exists (combinations l (length k)). split.
    + by apply elem_of_combinations.
    + apply list_elem_of_fmap. exists (length k). split; [done|].
      by apply elem_of_seq.
Qed.

Lemma NoDup_chain {A} (l : list A) (n : nat) :
  NoDup l -> forall a, NoDup (mjoin (combinations l <$> seq a n)).
Proof.
  intros Hl. induction n as [|n IH]; intros a; simpl.
  - constructor.
  - apply NoDup_app. split_and!.
    + by apply NoDup_combinations.
    + intros k [_ Hlen]%elem_of_combinations [_ Hr]%elem_of_chain. lia.
    + apply IH.
Qed.

(** A subsequence of a duplicate-free list is determined by its elements. *)
Lemma sublist_as_filter (k l : list string) :
  k `sublist_of` l -> NoDup l ->
  forall T : gset string, (forall y, y ∈ l -> y ∈ T <-> y ∈ k) ->
  k = filter (fun y => y ∈ T) l.
Proof.
  induction 1 as [|x k l Hsub IH|x k l Hsub IH]; intros Hnd T HT.
  - done.
  - apply NoDup_cons in Hnd as [Hx Hnd].
    rewrite filter_cons_True by (apply HT; left).
    f_equal. apply IH; [done|]. intros y Hy. rewrite (HT y) by (by right).
    rewrite elem_of_cons. split; [|by right].
    intros [->|]; done.
  - apply NoDup_cons in Hnd as [Hx Hnd].
    rewrite filter_cons_False.
    + apply IH; [done|]. intros y Hy. apply HT. by right.
    + rewrite (HT x) by left. intros Hk. apply Hx.
      by apply (sublist_subseteq _ _ Hsub).
Qed.

Lemma list_to_set_sublist_inj (k1 k2 l : list string) :
  NoDup l -> k1 `sublist_of` l -> k2 `sublist_of` l ->
  list_to_set k1 =@{gset string} list_to_set k2 -> k1 = k2.
Proof.
  intros Hnd H1 H2 Heq.
  rewrite (sublist_as_filter k1 l H1 Hnd (list_to_set k1)),
          (sublist_as_filter k2 l H2 Hnd (list_to_set k1)); [done | |].
  - intros y _. rewrite Heq. apply elem_of_list_to_set.
  - intros y _. apply elem_of_list_to_set.
Qed.

Lemma elem_of_powerset (s T : gset string) :
  T ∈ powerset s <-> T ⊆ s.
Proof.
  unfold powerset. rewrite list_elem_of_fmap. split.
  - intros (k & -> & [Hsub _]%elem_of_chain).
    intros x Hx%elem_of_list_to_set.
    apply elem_of_elements. by apply (sublist_subseteq _ _ Hsub).
  - intros HT. exists (filter (fun y => y ∈ T) (elements s)). split.
    + apply set_eq. intros x.
      rewrite elem_of_list_to_set, list_elem_of_filter, elem_of_elements.
      split; [intros Hx; split; [done | by apply HT] | by intros [Hx _]].
    + apply elem_of_chain. split; [apply sublist_filter|].
      pose proof (length_filter (fun y => y ∈ T) (elements s)). lia.
Qed.

Lemma NoDup_powerset (s : gset string) : NoDup (powerset s).
Proof.
  unfold powerset. apply NoDup_fmap_2_strong.
  - intros k1 k2 [H1 _]%elem_of_chain [H2 _]%elem_of_chain.
    apply (list_to_set_sublist_inj k1 k2 (elements s));
      [apply NoDup_elements | done | done].
  - apply NoDup_chain, NoDup_elements.
Qed.

(** *** Counting *)

Lemma combinations_oversize {A} (l : list A) :
  forall r, length l < r -> combinations l r = [].
Proof.
  induction l as [|x l IH]; intros [|r] Hr; simpl in *; try lia; [done|].
  rewrite !IH by lia. done.
Qed.

Lemma combinations_cons {A} (x : A) (l : list A) (r : nat) :
  combinations (x :: l) (S r)
  = ((cons x <$> combinations l r) ++ combinations l (S r))%list.
Proof. reflexivity. Qed.

Lemma chain_cons {A} (l : list A) (a n : nat) :
  mjoin (combinations l <$> seq a (S n))
  = (combinations l a ++ mjoin (combinations l <$> seq (S a) n))%list.
Proof. reflexivity. Qed.

Lemma length_chain_cons {A} (x : A) (l : list A) (n : nat) :
  forall a,
    length (mjoin (combinations (x :: l) <$> seq (S a) n))
    = length (mjoin (combinations l <$> seq a n))
      + length (mjoin (combinations l <$> seq (S a) n)).
Proof.
  induction n as [|n IH]; intros a; [done|].
  rewrite !chain_cons, combinations_cons, !length_app, length_fmap, IH.
  lia.
Qed.

Lemma length_chain_oversize {A} (l : list A) (n : nat) :
  forall a, length l < a ->
    length (mjoin (combinations l <$> seq a n)) = 0.
Proof.
  induction n as [|n IH]; intros a Ha; [done|].
  rewrite chain_cons, length_app, combinations_oversize, IH by lia. done.
Qed.

Lemma length_chain_head {A} (l : list A) (n : nat) :
  length (mjoin (combinations l <$> seq 0 (S n)))
  = 1 + length (mjoin (combinations l <$> seq 1 n)).
Proof. rewrite chain_cons, length_app. by destruct l. Qed.

Lemma length_chain {A} (l : list A) :
  forall m, length l < m ->
    length (mjoin (combinations l <$> seq 0 m)) = 2 ^ length l.
Proof.
  induction l as [|x l IH]; intros [|m] Hm; simpl in Hm; try lia.
  - rewrite length_chain_head, length_chain_oversize by (simpl; lia). done.
  - rewrite length_chain_head, length_chain_cons.
    pose proof (IH (S m) ltac:(lia)) as HS.
    rewrite length_chain_head in HS.
    rewrite (IH m) by lia.
    change (2 ^ length (x :: l)) with (2 * 2 ^ length l). lia.
Qed.

Lemma length_powerset (s : gset string) :
  length (powerset s) = 2 ^ size s.
Proof.
  unfold powerset. rewrite length_fmap, length_chain by lia. done.
Qed.

End Powerset.

(** ** The enumeration loop of [main] (C4, C5) *)

Section Enumeration.

Variable people : gmap string Person.

Lemma fails_evidence_true (have_trait : gset string) :
  fails_evidence people (dom people) have_trait = true
  <-> exists person row t,
        people !! person = Some row /\ trait row = Some t
        /\ t <> bool_decide (person ∈ have_trait).
Proof.
  unfold fails_evidence. rewrite existsb_exists. split.
  - intros (person & _ & Hp).
    destruct (people !! person) as [row|] eqn:Hrow; [|discriminate Hp].
    destruct (trait row) as [t|] eqn:Ht; [|discriminate Hp].
    exists person, row, t. split_and!; [done | done |].
    intros ->. by rewrite eqb_reflx in Hp.
  - intros (person & row & t & Hrow & Ht & Hne).
    exists person. split.
    + apply list_elem_of_In, elem_of_elements, elem_of_dom. eauto.
    + rewrite Hrow, Ht.
      destruct t, (bool_decide (person ∈ have_trait)); done.
Qed.

Lemma fails_evidence_false (have_trait : gset string) :
  fails_evidence people (dom people) have_trait = false
  <-> forall person row t,
        people !! person = Some row -> trait row = Some t ->
        (person ∈ have_trait <-> t = true).
Proof.
  rewrite <- not_true_iff_false, fails_evidence_true. split.
  - intros Hno person row t Hrow Ht.
    destruct (decide (t = bool_decide (person ∈ have_trait))) as [->|Hne].
    + rewrite bool_decide_eq_true. done.
    + destruct Hno. eauto 10.
  - intros Hall (person & row & t & Hrow & Ht & Hne).
    apply Hne. specialize (Hall person row t Hrow Ht).
    destruct t; symmetry.
    + apply bool_decide_eq_true. by apply Hall.
    + apply bool_decide_eq_false. intros Hin. by apply Hall in Hin.
Qed.

Lemma elem_of_hypotheses (one_gene two_genes have_trait : gset string) :
  (one_gene, two_genes, have_trait) ∈ hypotheses people
  <-> have_trait ⊆ dom people
      /\ fails_evidence people (dom people) have_trait = false
      /\ one_gene ⊆ dom people
      /\ two_genes ⊆ dom people ∖ one_gene.
Proof.
  unfold hypotheses. rewrite list_elem_of_bind. split.
  - intros (ht & Hin & Hht%elem_of_powerset).
    destruct (fails_evidence people (dom people) ht) eqn:Hev;
      [by apply elem_of_nil in Hin|].
    apply list_elem_of_bind in Hin as (og & Hin & Hog%elem_of_powerset).
    apply list_elem_of_bind in Hin as (tg & Hin & Htg%elem_of_powerset).
    apply list_elem_of_singleton in Hin. by simplify_eq.
  - intros (Hht & Hev & Hog & Htg). exists have_trait.
    split; [|by apply elem_of_powerset]. rewrite Hev.
    apply list_elem_of_bind. exists one_gene.
    split; [|by apply elem_of_powerset].
    apply list_elem_of_bind. exists two_genes.
    split; [|by apply elem_of_powerset].
    by apply list_elem_of_singleton.
Qed.

Lemma NoDup_hypotheses : NoDup (hypotheses people).
Proof.
  unfold hypotheses. apply NoDup_bind; [| |apply NoDup_powerset].
  - intros ht1 ht2 h _ _ H1 H2.
    destruct (fails_evidence people (dom people) ht1);
      [by apply elem_of_nil in H1|].
    destruct (fails_evidence people (dom people) ht2);
      [by apply elem_of_nil in H2|].
    apply list_elem_of_bind in H1 as (og1 & H1 & _).
    apply list_elem_of_bind in H1 as (tg1 & H1 & _).
    apply list_elem_of_bind in H2 as (og2 & H2 & _).
    apply list_elem_of_bind in H2 as (tg2 & H2 & _).
    apply list_elem_of_singleton in H1, H2. by simplify_eq.
  - intros ht _.
    destruct (fails_evidence people (dom people) ht); [constructor|].
    apply NoDup_bind; [| |apply NoDup_powerset].
    + intros og1 og2 h _ _ H1 H2.
      apply list_elem_of_bind in H1 as (tg1 & H1 & _).
      apply list_elem_of_bind in H2 as (tg2 & H2 & _).
      apply list_elem_of_singleton in H1, H2. by simplify_eq.
    + intros og _. apply NoDup_bind; [| |apply NoDup_powerset].
      * intros tg1 tg2 h _ _ H1 H2.
        apply list_elem_of_singleton in H1, H2. by simplify_eq.
      * intros tg _. apply NoDup_singleton.
Qed.

End Enumeration.

(** C4. A [have_trait] set is rejected by the filter of [main] exactly when
    some person with a known trait is assigned the other value; persons with
    unknown trait do not enter the test.  Every hypothesis that reaches
    [joint_probability] and [update] agrees with every known trait. *)
Theorem evidence_filter (people : gmap string Person) :
  (forall have_trait : gset string,
     fails_evidence people (dom people) have_trait = true
     <-> exists person row t,
           people !! person = Some row /\ trait row = Some t
           /\ t <> bool_decide (person ∈ have_trait))
  /\ (forall one_gene two_genes have_trait : gset string,
        (one_gene, two_genes, have_trait) ∈ hypotheses people ->
        forall person row t,
          people !! person = Some row -> trait row = Some t ->
          (person ∈ have_trait <-> t = true)).
Proof.
  split.
  - apply fails_evidence_true.
  - intros og tg ht (_ & Hev & _)%elem_of_hypotheses.
    by apply fails_evidence_false.
Qed.

Lemma evidence_filter_witness :
  (∅, ∅, {["Bob"]}) ∈ hypotheses cyclic
  /\ ("Bob" ∈ ({["Bob"]} : gset string) <-> true = true).
Proof.
  assert (Hin : (∅, ∅, {["Bob"]}) ∈ hypotheses cyclic).
  { apply elem_of_hypotheses. split_and!.
    - apply singleton_subseteq_l, elem_of_dom. eexists. vm_compute. reflexivity.
    - vm_compute. reflexivity.
    - apply empty_subseteq.
    - apply empty_subseteq. }
  split; [exact Hin|].
  apply (proj2 (evidence_filter cyclic) ∅ ∅ {["Bob"]} Hin
           "Bob" (child_of "Bob" "Ann" "Ann" (Some true)) true);
    reflexivity.
Defined.

(** C5. For every pedigree with name set [names]: [powerset(names)] lists
    every subset of [names] exactly once, [2^n] sets in all; the loop nest
    of [main] runs its body exactly once for every triple of a [have_trait]
    subset that passes the evidence filter and two disjoint subsets
    [one_gene] and [two_genes], and for no other triple. *)
Theorem enumeration_exhaustive_once (people : gmap string Person) :
  NoDup (powerset (dom people))
  /\ (forall T : gset string, T ∈ powerset (dom people) <-> T ⊆ dom people)
  /\ length (powerset (dom people)) = (2 ^ size (dom people))%nat
  /\ NoDup (hypotheses people)
  /\ (forall one_gene two_genes have_trait : gset string,
        (one_gene, two_genes, have_trait) ∈ hypotheses people
        <-> have_trait ⊆ dom people
            /\ fails_evidence people (dom people) have_trait = false
            /\ one_gene ⊆ dom people
            /\ two_genes ⊆ dom people
            /\ one_gene ## two_genes).
Proof.
  split_and!.
  - apply NoDup_powerset.
  - intros T. apply elem_of_powerset.
  - apply length_powerset.
  - apply NoDup_hypotheses.
  - intros og tg ht. rewrite elem_of_hypotheses.
    assert (Hsplit : tg ⊆ dom people ∖ og <-> tg ⊆ dom people /\ og ## tg).
    { split.
      - intros Hsub. split.
        + intros x Hx. apply Hsub, elem_of_difference in Hx. tauto.
        + intros x Hog Htg. apply Hsub, elem_of_difference in Htg. tauto.
      - intros [Hsub Hdisj] x Hx. apply elem_of_difference.
        split; [by apply Hsub | intros Hog; by apply (Hdisj x)]. }
    rewrite Hsplit. reflexivity.
Qed.

(** ** [normalize] (C6, C9) *)

Section Normalize.

Lemma py_div_nonzero (x y : Q) : ~ y == 0 -> py_div x y = Ok (x / y).
Proof.
  intros Hy. unfold py_div.
  destruct (Qeq_bool y 0) eqn:Hb; [|reflexivity].
  apply Qeq_bool_iff in Hb. contradiction.
Qed.

Lemma py_div_zero (x y : Q) : y == 0 -> py_div x y = Raise ZeroDivisionError.
Proof.
  intros Hy. unfold py_div. apply Qeq_bool_iff in Hy. rewrite Hy. reflexivity.
Qed.

Lemma normalize_entry_nonzero (e : Entry) :
  ~ total_gene e == 0 -> ~ total_trait e == 0 ->
  normalize_entry e = Ok (quotients e).
Proof.
  intros Hg Ht. unfold normalize_entry.
  rewrite !(py_div_nonzero _ _ Hg). cbn.
  rewrite !(py_div_nonzero _ _ Ht). reflexivity.
Qed.

Lemma normalize_entry_zero (e : Entry) :
  total_gene e == 0 \/ total_trait e == 0 ->
  normalize_entry e = Raise ZeroDivisionError.
Proof.
  intros Hz. unfold normalize_entry.
  destruct (Qeq_dec (total_gene e) 0) as [Hg|Hg].
  - rewrite !(py_div_zero _ _ Hg). reflexivity.
  - rewrite !(py_div_nonzero _ _ Hg). cbn.
    destruct Hz as [Hz|Hz]; [contradiction|].
    rewrite !(py_div_zero _ _ Hz). reflexivity.
Qed.

Lemma quotients_total_gene (e : Entry) :
  ~ total_gene e == 0 -> total_gene (quotients e) == 1.
Proof.
  intros Hg. unfold quotients, total_gene in *. cbn. field.
  intros Hz. apply Hg. lra.
Qed.

Lemma quotients_total_trait (e : Entry) :
  ~ total_trait e == 0 -> total_trait (quotients e) == 1.
Proof.
  intros Ht. unfold quotients, total_trait in *. cbn. field.
  intros Hz. apply Ht. lra.
Qed.

Lemma for_each_cons {A S} (body : S -> A -> result S) (x : A) (l : list A)
    (s : S) :
  for_each body (x :: l) s = body s x ≫= for_each body l.
Proof. reflexivity. Qed.

Lemma normalize_child_nonzero (probabilities : gmap string Entry)
    (child : string) (e : Entry) :
  probabilities !! child = Some e ->
  ~ total_gene e == 0 -> ~ total_trait e == 0 ->
  normalize_child probabilities child
  = Ok (<[child := quotients e]> probabilities).
Proof.
  intros He Hg Ht. unfold normalize_child.
  rewrite He, (normalize_entry_nonzero e Hg Ht). reflexivity.
Qed.

Lemma normalize_child_zero (probabilities : gmap string Entry)
    (child : string) (e : Entry) :
  probabilities !! child = Some e ->
  total_gene e == 0 \/ total_trait e == 0 ->
  normalize_child probabilities child = Raise ZeroDivisionError.
Proof.
  intros He Hz. unfold normalize_child.
  rewrite He, (normalize_entry_zero e Hz). reflexivity.
Qed.

(** The loop of [normalize] over distinct keys of the table, when no sum
    is zero: every listed child is replaced by its quotients, the others
    are left as they are. *)
Lemma normalize_loop_ok (l : list string) :
  NoDup l ->
  forall probabilities : gmap string Entry,
    (forall child, child ∈ l ->
       exists e, probabilities !! child = Some e
                 /\ ~ total_gene e == 0 /\ ~ total_trait e == 0) ->
    exists probabilities',
      for_each normalize_child l probabilities = Ok probabilities'
      /\ (forall child, child ∈ l ->
            probabilities' !! child = quotients <$> probabilities !! child)
      /\ (forall child, child ∉ l ->
            probabilities' !! child = probabilities !! child).
Proof.
  induction 1 as [|x l Hx Hnd IH]; intros probabilities Hall.
  - exists probabilities. split_and!; [done | | done].
    intros child Hin. by apply elem_of_nil in Hin.
  - destruct (Hall x) as (e & He & Hg & Ht); [left|].
    destruct (IH (<[x := quotients e]> probabilities))
      as (probabilities' & Hrun & Hin & Hout).
    { intros child Hc. destruct (Hall child) as (e' & He' & Hz); [by right|].
      exists e'. split; [|done].
      rewrite lookup_insert_ne; [done|]. intros ->. contradiction. }
    exists probabilities'. split_and!.
    + rewrite for_each_cons, (normalize_child_nonzero _ _ e He Hg Ht).
      exact Hrun.
    + intros child [->|Hc]%elem_of_cons.
      * rewrite (Hout _ Hx), lookup_insert_eq, He. reflexivity.
      * rewrite (Hin _ Hc), lookup_insert_ne; [done|].
        intros ->. contradiction.
    + intros child Hc. apply not_elem_of_cons in Hc as [Hne Hc].
      rewrite (Hout _ Hc), lookup_insert_ne; done.
Qed.

(** The same loop when some listed child has a zero sum. *)
Lemma normalize_loop_raises (l : list string) :
  NoDup l ->
  forall probabilities : gmap string Entry,
    (forall child, child ∈ l -> is_Some (probabilities !! child)) ->
    (exists child e,
       child ∈ l /\ probabilities !! child = Some e
       /\ (total_gene e == 0 \/ total_trait e == 0)) ->
    for_each normalize_child l probabilities = Raise ZeroDivisionError.
Proof.
  induction 1 as [|x l Hx Hnd IH]; intros probabilities Hkeys Hzero.
  - destruct Hzero as (child & e & Hin & _). by apply elem_of_nil in Hin.
  - destruct (Hkeys x) as [ex Hex]; [left|].
    rewrite for_each_cons.
    destruct (Qeq_dec (total_gene ex) 0) as [Hg|Hg];
      [rewrite (normalize_child_zero _ _ ex Hex) by (by left); reflexivity|].
    destruct (Qeq_dec (total_trait ex) 0) as [Ht|Ht];
      [rewrite (normalize_child_zero _ _ ex Hex) by (by right); reflexivity|].
    rewrite (normalize_child_nonzero _ _ ex Hex Hg Ht).
    change (for_each normalize_child l (<[x := quotients ex]> probabilities)
            = Raise ZeroDivisionError).
    destruct Hzero as (child & e & Hin & He & Hz).
    assert (Hne : x <> child).
    { intros ->. rewrite Hex in He. injection He as <-. tauto. }
    apply elem_of_cons in Hin as [->|Hin]; [done|].
    apply IH.
    + intros c Hc. rewrite lookup_insert_is_Some'. right. apply Hkeys. by right.
    + exists child, e. rewrite lookup_insert_ne; done.
Qed.

Lemma elem_of_keys {A} (m : gmap string A) (k : string) :
  k ∈ (map_to_list m).*1 <-> is_Some (m !! k).
Proof.
  rewrite list_elem_of_fmap. split.
  - intros [[k' v] [-> Hin]]. apply elem_of_map_to_list in Hin. eauto.
  - intros [v Hv]. exists (k, v). split; [reflexivity|].
    apply elem_of_map_to_list. exact Hv.
Qed.

Lemma total_gene_sum (e : Entry) :
  total_gene e == gene2 (gene e) + gene1 (gene e) + gene0 (gene e).
Proof. unfold total_gene. ring. Qed.

Lemma total_trait_sum (e : Entry) :
  total_trait e == traitT (trait_ e) + traitF (trait_ e).
Proof. unfold total_trait. ring. Qed.

Lemma sums_nonzero_totals (e : Entry) :
  sums_nonzero e -> ~ total_gene e == 0 /\ ~ total_trait e == 0.
Proof.
  intros [Hg Ht]. rewrite total_gene_sum, total_trait_sum. done.
Qed.

Lemma quotients_divided (e : Entry) :
  sums_nonzero e -> divided_by_its_sums e (quotients e).
Proof.
  intros Hnz. destruct (sums_nonzero_totals e Hnz) as [Hg Ht].
  destruct Hnz as [Hg' Ht'].
  unfold divided_by_its_sums, gene_divided, quotients. cbn.
  rewrite total_gene_sum, total_trait_sum.
  split_and!; try reflexivity; field; assumption.
Qed.

Lemma divide_gene_nonzero (k : copies) (total : Q) (e : Entry) :
  ~ total == 0 ->
  divide_gene k total e
  = Ok {| gene := set_gene k (get_gene k (gene e) / total) (gene e);
          trait_ := trait_ e |}.
Proof. intros Hn. unfold divide_gene. by rewrite (py_div_nonzero _ _ Hn). Qed.

Lemma divide_gene_zero (k : copies) (total : Q) (e : Entry) :
  total == 0 -> divide_gene k total e = Raise ZeroDivisionError.
Proof. intros Hz. unfold divide_gene. by rewrite (py_div_zero _ _ Hz). Qed.

Lemma divide_trait_nonzero (b : bool) (total : Q) (e : Entry) :
  ~ total == 0 ->
  divide_trait b total e
  = Ok {| gene := gene e;
          trait_ := set_trait b (get_trait b (trait_ e) / total) (trait_ e) |}.
Proof. intros Hn. unfold divide_trait. by rewrite (py_div_nonzero _ _ Hn). Qed.

Lemma divide_trait_zero (b : bool) (total : Q) (e : Entry) :
  total == 0 -> divide_trait b total e = Raise ZeroDivisionError.
Proof. intros Hz. unfold divide_trait. by rewrite (py_div_zero _ _ Hz). Qed.

(** The entry after the three gene divisions. *)
Lemma in_place_gene (e : Entry) (total : Q) :
  ~ total == 0 ->
  in_place [divide_gene Zero total; divide_gene One total;
            divide_gene Two total] e
  = ({| gene := {| gene2 := gene2 (gene e) / total;
                   gene1 := gene1 (gene e) / total;
                   gene0 := gene0 (gene e) / total |};
        trait_ := trait_ e |}, None).
Proof.
  intros Hn. cbn [in_place].
  rewrite (divide_gene_nonzero Zero total _ Hn).
  rewrite (divide_gene_nonzero One total _ Hn).
  rewrite (divide_gene_nonzero Two total _ Hn).
  reflexivity.
Qed.

(** The in-place run agrees with [normalize_entry] on what is returned and
    on what is raised. *)
Lemma normalize_entry_in_place_result (e : Entry) :
  normalize_entry e
  = match normalize_entry_in_place e with
    | (e', None) => Ok e'
    | (_, Some x) => Raise x
    end.
Proof.
  unfold normalize_entry_in_place.
  destruct (Qeq_dec (total_gene e) 0) as [Hg|Hg].
  - rewrite normalize_entry_zero by (by left).
    cbn [in_place]. rewrite (divide_gene_zero Zero _ _ Hg). reflexivity.
  - rewrite (in_place_gene e _ Hg).
    change (total_trait _) with (total_trait e).
    destruct (Qeq_dec (total_trait e) 0) as [Ht|Ht].
    + rewrite normalize_entry_zero by (by right).
      cbn [in_place]. rewrite (divide_trait_zero false _ _ Ht). reflexivity.
    + rewrite (normalize_entry_nonzero e Hg Ht). cbn [in_place].
      rewrite (divide_trait_nonzero false _ _ Ht).
      rewrite (divide_trait_nonzero true _ _ Ht). reflexivity.
Qed.


End Normalize.

(** C6. For a person whose buckets are not negative and whose gene sum and
    trait sum are not zero, the pass of the loop of [normalize] for that
    person raises nothing and replaces every bucket by its former value
    divided by the sum of its distribution, so that each of the two
    distributions sums to [1]; and when this holds of every person of the
    table, [normalize] returns the table in which every person is so
    divided. *)
Theorem normalize_divides (probabilities : gmap string Entry) :
  (forall child e,
     probabilities !! child = Some e -> nonneg_entry e -> sums_nonzero e ->
     exists e',
       normalize_child probabilities child = Ok (<[child := e']> probabilities)
       /\ divided_by_its_sums e e')
  /\ ((forall child e, probabilities !! child = Some e ->
         nonneg_entry e /\ sums_nonzero e) ->
      exists probabilities',
        normalize probabilities = Ok probabilities'
        /\ forall child e, probabilities !! child = Some e ->
             exists e',
               probabilities' !! child = Some e'
               /\ divided_by_its_sums e e').
Proof.
  split.
  - intros child e He _ Hnz. exists (quotients e). split.
    + destruct (sums_nonzero_totals e Hnz) as [Hg Ht].
      by apply normalize_child_nonzero.
    + by apply quotients_divided.
  - intros Hall. unfold normalize.
    destruct (normalize_loop_ok (map_to_list probabilities).*1
                (NoDup_fst_map_to_list probabilities) probabilities)
      as (probabilities' & Hrun & Hin & _).
    { intros child [e He]%elem_of_keys. exists e. split; [done|].
      apply sums_nonzero_totals. by apply (Hall child). }
    exists probabilities'. split; [exact Hrun|].
    intros child e He. exists (quotients e). split.
    + rewrite Hin by (apply elem_of_keys; eauto). rewrite He. reflexivity.
    + apply quotients_divided. by apply (Hall child).
Qed.

Lemma solo_after_two_entry (child : string) (e : Entry) :
  solo_after_two !! child = Some e -> nonneg_entry e /\ sums_nonzero e.
Proof.
  intros He. unfold solo_after_two in He.
  apply lookup_singleton_Some in He as [_ <-].
  split.
  - unfold nonneg_entry. cbn. repeat split; discriminate.
  - split; intros H; vm_compute in H; discriminate H.
Qed.

Lemma normalize_divides_witness :
  (exists e' e,
     solo_after_two !! "Lily" = Some e
     /\ normalize_child solo_after_two "Lily"
        = Ok (<["Lily" := e']> solo_after_two)
     /\ divided_by_its_sums e e')
  /\ exists probabilities',
       normalize solo_after_two = Ok probabilities'
       /\ forall child e, solo_after_two !! child = Some e ->
            exists e',
              probabilities' !! child = Some e'
              /\ divided_by_its_sums e e'.
Proof.
  destruct (normalize_divides solo_after_two) as [Hone Hall]. split.
  - assert (He : solo_after_two !! "Lily"
                 = Some {| gene := {| gene2 := 0.0165; gene1 := 0;
                                      gene0 := 1.9104 |};
                           trait_ := {| traitT := 0; traitF := 0.3565 |} |})
      by apply lookup_singleton_eq.
    destruct (solo_after_two_entry _ _ He) as [Hnn Hnz].
    destruct (Hone _ _ He Hnn Hnz) as (e' & Hrun & Hdiv).
    exists e'. eexists. split; [exact He|]. split; [exact Hrun | exact Hdiv].
  - apply Hall. exact solo_after_two_entry.
Defined.




(** ** [main] never reads the parent fields (C10) *)

Section MainParents.

Variable f : Person -> Person.
Hypothesis f_trait : forall row, trait (f row) = trait row.

Lemma fails_evidence_fmap (people : gmap string Person)
    (names have_trait : gset string) :
  fails_evidence (f <$> people) names have_trait
  = fails_evidence people names have_trait.
Proof.
  unfold fails_evidence.
  induction (elements names) as [|person l IH]; [reflexivity|].
  cbn [existsb]. rewrite IH, lookup_fmap.
  destruct (people !! person) as [row|]; [|reflexivity].
  cbn. rewrite f_trait. reflexivity.
Qed.

Lemma hypotheses_fmap (people : gmap string Person) :
  hypotheses (f <$> people) = hypotheses people.
Proof.
  unfold hypotheses. rewrite dom_fmap_L.
  apply list_bind_ext; [|reflexivity].
  intros ht. rewrite fails_evidence_fmap. reflexivity.
Qed.

Lemma init_probabilities_fmap (people : gmap string Person) :
  init_probabilities (f <$> people) = init_probabilities people.
Proof.
  unfold init_probabilities. rewrite <- map_fmap_compose. reflexivity.
Qed.

Lemma main_step_fmap (people : gmap string Person)
    (probabilities : gmap string Entry) (h : hypothesis) :
  main_step (f <$> people) probabilities h = main_step people probabilities h.
Proof.
  destruct h as [[one_gene two_genes] have_trait]. unfold main_step.
  rewrite joint_probability_fmap. reflexivity.
Qed.

End MainParents.

Lemma for_each_ext {A S} (body1 body2 : S -> A -> result S) (l : list A) :
  (forall s x, body1 s x = body2 s x) ->
  forall s, for_each body1 l s = for_each body2 l s.
Proof.
  intros Hext. induction l as [|x l IH]; intros s; [reflexivity|].
  cbn [for_each]. rewrite Hext. destruct (body2 s x); cbn; [apply IH | reflexivity].
Qed.

(** * Further properties of the code *)

(** ** Loops that rewrite one entry per key *)

Section PointwiseLoops.

Context {V : Type}.
Variable body : gmap string V -> string -> result (gmap string V).
Variable g : string -> V -> V.

Hypothesis body_present :
  forall (t : gmap string V) (child : string) (e : V),
    t !! child = Some e -> body t child = Ok (<[child := g child e]> t).

(** Over distinct keys of the table the loop does not raise; it rewrites the
    listed entries with [g] and leaves the others. *)
Lemma for_each_pointwise (l : list string) :
  NoDup l ->
  forall t : gmap string V,
    (forall child, child ∈ l -> is_Some (t !! child)) ->
    exists t',
      for_each body l t = Ok t'
      /\ forall child,
           t' !! child
           = if decide (child ∈ l) then g child <$> t !! child else t !! child.
Proof.
  induction 1 as [|x l Hx Hnd IH]; intros t Hkeys.
  - exists t. split; [reflexivity|]. intros child.
    rewrite decide_False; [reflexivity | apply not_elem_of_nil].
  - destruct (Hkeys x) as [e He]; [left|].
    destruct (IH (<[x := g x e]> t)) as (t' & Hrun & Hlook).
    { intros child Hc. rewrite lookup_insert_is_Some'. right.
      apply Hkeys. by right. }
    exists t'. split.
    + rewrite for_each_cons, (body_present t x e He). exact Hrun.
    + intros child. rewrite Hlook.
      destruct (decide (child = x)) as [->|Hne].
      * rewrite (decide_False _ _ Hx), (decide_True _ _ (list_elem_of_here x l)).
        rewrite lookup_insert_eq, He. reflexivity.
      * rewrite lookup_insert_ne by done.
        destruct (decide (child ∈ l)) as [Hc|Hc].
        -- rewrite decide_True by (by right). reflexivity.
        -- rewrite decide_False; [reflexivity|].
           intros [->|Hc']%elem_of_cons; contradiction.
Qed.

(** If moreover the body raises [KeyError] for a name that is no key, the
    loop over a list with such a name raises [KeyError] for one of them. *)
Lemma for_each_absent (l : list string) :
  (forall (t : gmap string V) (child : string),
     t !! child = None -> body t child = Raise (KeyError child)) ->
  forall t : gmap string V,
    (exists child, child ∈ l /\ t !! child = None) ->
    exists child,
      child ∈ l /\ t !! child = None
      /\ for_each body l t = Raise (KeyError child).
Proof.
  intros body_absent.
  induction l as [|x l IH]; intros t (c & Hc & Hnone).
  - by apply elem_of_nil in Hc.
  - destruct (t !! x) as [e|] eqn:He.
    + destruct (IH (<[x := g x e]> t)) as (c' & Hc' & Hnone' & Hrun).
      { exists c. apply elem_of_cons in Hc as [->|Hc]; [congruence|].
        split; [done|]. rewrite lookup_insert_ne; [done|]. congruence. }
      exists c'. split_and!.
      * by right.
      * rewrite lookup_insert_None in Hnone'. tauto.
      * rewrite for_each_cons, (body_present t x e He). exact Hrun.
    + exists x. split_and!; [left | done |].
      rewrite for_each_cons, (body_absent t x He). reflexivity.
Qed.

End PointwiseLoops.

(** ** [update]: unknown names, and the table it returns *)

Section Update.

Variables (have_trait : gset string) (p : Q).

Lemma update_child_present (k : copies) (t : gmap string Entry)
    (child : string) (e : Entry) :
  t !! child = Some e ->
  update_child k have_trait p t child
  = Ok (<[child := written k have_trait p child e]> t).
Proof. intros He. unfold update_child. rewrite He. reflexivity. Qed.

Lemma update_child_absent (k : copies) (t : gmap string Entry)
    (child : string) :
  t !! child = None ->
  update_child k have_trait p t child = Raise (KeyError child).
Proof. intros He. unfold update_child. rewrite He. reflexivity. Qed.

(** A loop of [update] over a list with a name that is no key of the table
    raises [KeyError] at the first such name. *)
Lemma update_loop_raises (k : copies) (l : list string) :
  forall t : gmap string Entry,
    (exists child, child ∈ l /\ t !! child = None) ->
    exists child,
      child ∈ l /\ t !! child = None
      /\ for_each (update_child k have_trait p) l t = Raise (KeyError child).
Proof.
  apply (for_each_absent (update_child k have_trait p)
           (written k have_trait p) (update_child_present k)).
  apply update_child_absent.
Qed.

Lemma update_loop_ok (k : copies) (s : gset string) (t : gmap string Entry) :
  s ⊆ dom t ->
  exists t',
    for_each (update_child k have_trait p) (elements s) t = Ok t'
    /\ forall child,
         t' !! child
         = if decide (child ∈ s) then written k have_trait p child <$> t !! child
           else t !! child.
Proof.
  intros Hs.
  destruct (for_each_pointwise (update_child k have_trait p)
              (written k have_trait p) (update_child_present k)
              (elements s) (NoDup_elements s) t) as (t' & Hrun & Hlook).
  { intros child Hc%elem_of_elements. by apply elem_of_dom, Hs. }
  exists t'. split; [exact Hrun|]. intros child. rewrite Hlook.
  destruct (decide (child ∈ s)) as [Hc|Hc].
  - rewrite decide_True by (by apply elem_of_elements). reflexivity.
  - rewrite decide_False; [reflexivity|]. by rewrite elem_of_elements.
Qed.

Lemma lookup_dom_eq {V} (t t' : gmap string V) (f : string -> V -> V) :
  (forall child, t' !! child = f child <$> t !! child) -> dom t' = dom t.
Proof.
  intros Hlook. apply set_eq. intros child.
  rewrite !elem_of_dom, Hlook, fmap_is_Some. reflexivity.
Qed.

Lemma update_table (t : gmap string Entry) (one_gene two_genes : gset string) :
  one_gene ⊆ dom t -> two_genes ⊆ dom t ->
  exists t',
    update t one_gene two_genes have_trait p = Ok t'
    /\ forall child,
         t' !! child
         = updated_entry one_gene two_genes have_trait p child <$> t !! child.
Proof.
  intros Hog Htg. unfold update.
  destruct (update_loop_ok One one_gene t Hog) as (t1 & Hrun1 & Hlook1).
  assert (Hdom1 : dom t1 = dom t).
  { apply (lookup_dom_eq t t1
             (fun c e => if decide (c ∈ one_gene)
                         then written One have_trait p c e else e)).
    intros c. rewrite Hlook1. case_decide; [reflexivity|].
    by destruct (t !! c). }
  destruct (update_loop_ok Two two_genes t1) as (t2 & Hrun2 & Hlook2);
    [by rewrite Hdom1|].
  rewrite Hrun1. cbn. rewrite Hrun2. cbn.
  destruct (for_each_pointwise
              (fun t c => if decide (c ∉ one_gene ∪ two_genes ∪ have_trait)
                          then update_child Zero have_trait p t c else Ok t)
              (fun c e => if decide (c ∉ one_gene ∪ two_genes ∪ have_trait)
                          then written Zero have_trait p c e else e)
              ) with (l := (map_to_list t2).*1) (t := t2)
    as (t3 & Hrun3 & Hlook3).
  { intros t' c e He. case_decide.
    - by apply update_child_present.
    - by rewrite insert_id. }
  { apply NoDup_fst_map_to_list. }
  { intros c Hc. by apply elem_of_keys. }
  exists t3. split; [exact Hrun3|].
  intros child. rewrite Hlook3, Hlook2, Hlook1. unfold updated_entry.
  destruct (t !! child) as [e|] eqn:He.
  - rewrite decide_True.
    + repeat case_decide; reflexivity.
    + apply elem_of_keys. rewrite Hlook2, Hlook1, He.
      repeat case_decide; eauto.
  - repeat case_decide; reflexivity.
Qed.

End Update.

(** X1. When both gene sets are names of the table, [update] raises nothing
    and returns a table with the same names. *)
Theorem update_keeps_names (t : gmap string Entry)
    (one_gene two_genes have_trait : gset string) (p : Q) :
  one_gene ⊆ dom t -> two_genes ⊆ dom t ->
  exists t', update t one_gene two_genes have_trait p = Ok t'
             /\ dom t' = dom t.
Proof.
  intros Hog Htg.
  destruct (update_table have_trait p t one_gene two_genes Hog Htg)
    as (t' & Hrun & Hlook).
  exists t'. split; [exact Hrun|].
  exact (lookup_dom_eq t t' _ Hlook).
Qed.

Lemma update_keeps_names_witness :
  exists t', update solo_after_two {["Lily"]} ∅ ∅ 0.5 = Ok t'
             /\ dom t' = dom solo_after_two.
Proof.
  apply (update_keeps_names solo_after_two {["Lily"]} ∅ ∅ 0.5).
  - unfold solo_after_two. rewrite dom_singleton_L. reflexivity.
  - apply empty_subseteq.
Defined.

(** X2. With disjoint gene sets that are names of the table, as [main] passes
    them, [update] rewrites the entry of a person in [one_gene] by the write
    for one copy, of a person in [two_genes] by the write for two copies, of
    a person in none of the three sets by the write for no copy, and leaves
    the entry of a person who is only in [have_trait] as it was.  A write
    assigns [PROBS["gene"][k] + p] to the gene bucket [k] and
    [PROBS["trait"][k][b] + p] to the trait bucket [b], where [b] tells
    whether the person is in [have_trait], and nothing else. *)
Theorem update_entries (t : gmap string Entry)
    (one_gene two_genes have_trait : gset string) (p : Q) :
  one_gene ⊆ dom t -> two_genes ⊆ dom t -> one_gene ## two_genes ->
  exists t',
    update t one_gene two_genes have_trait p = Ok t'
    /\ forall child e, t !! child = Some e ->
         exists e',
           t' !! child = Some e'
           /\ (child ∈ one_gene -> e' = written One have_trait p child e)
           /\ (child ∈ two_genes -> e' = written Two have_trait p child e)
           /\ (child ∉ one_gene ∪ two_genes ∪ have_trait ->
               e' = written Zero have_trait p child e)
           /\ (child ∈ have_trait -> child ∉ one_gene ∪ two_genes -> e' = e).
Proof.
  intros Hog Htg Hdisj.
  destruct (update_table have_trait p t one_gene two_genes Hog Htg)
    as (t' & Hrun & Hlook).
  exists t'. split; [exact Hrun|].
  intros child e He. eexists. split; [rewrite Hlook, He; reflexivity|].
  unfold updated_entry.
  pose proof (Hdisj child) as Hd.
  split_and!; intros; repeat case_decide; try reflexivity; exfalso;
    rewrite ?elem_of_union in *; tauto.
Qed.

Lemma update_entries_witness :
  exists t',
    update solo_after_two {["Lily"]} ∅ ∅ 0.5 = Ok t'
    /\ forall child e, solo_after_two !! child = Some e ->
         exists e',
           t' !! child = Some e'
           /\ (child ∈ ({["Lily"]} : gset string) ->
               e' = written One ∅ 0.5 child e)
           /\ (child ∈ (∅ : gset string) -> e' = written Two ∅ 0.5 child e)
           /\ (child ∉ ({["Lily"]} ∪ ∅ ∪ ∅ : gset string) ->
               e' = written Zero ∅ 0.5 child e)
           /\ (child ∈ (∅ : gset string) ->
               child ∉ ({["Lily"]} ∪ ∅ : gset string) -> e' = e).
Proof.
  apply (update_entries solo_after_two {["Lily"]} ∅ ∅ 0.5).
  - unfold solo_after_two. rewrite dom_singleton_L. reflexivity.
  - apply empty_subseteq.
  - apply disjoint_empty_r.
Defined.

(** X3. If a gene set holds a name that is no key of the table, [update]
    raises [KeyError] for such a name. *)
Theorem update_unknown_name (t : gmap string Entry)
    (one_gene two_genes have_trait : gset string) (p : Q) (stranger : string) :
  stranger ∈ one_gene ∪ two_genes -> t !! stranger = None ->
  exists child,
    child ∈ one_gene ∪ two_genes /\ t !! child = None
    /\ update t one_gene two_genes have_trait p = Raise (KeyError child).
Proof.
  intros Hin Hnone. unfold update.
  destruct (decide (one_gene ⊆ dom t)) as [Hog|Hog].
  - destruct (update_loop_ok have_trait p One one_gene t Hog)
      as (t1 & Hrun1 & Hlook1).
    assert (Hsame : forall c, t1 !! c = None <-> t !! c = None).
    { intros c. rewrite Hlook1. case_decide; [|reflexivity].
      apply fmap_None. }
    assert (Hs2 : stranger ∈ two_genes).
    { apply elem_of_union in Hin as [Hs|Hs]; [|exact Hs].
      apply Hog, elem_of_dom in Hs as [e He]. congruence. }
    destruct (update_loop_raises have_trait p Two (elements two_genes) t1)
      as (c & Hc & Hcn & Hrun2).
    { exists stranger. split; [by apply elem_of_elements | by apply Hsame]. }
    exists c. split_and!.
    + apply elem_of_union_r. by apply elem_of_elements.
    + by apply Hsame.
    + rewrite Hrun1. cbn. rewrite Hrun2. reflexivity.
  - assert (Hex : exists c, c ∈ one_gene /\ t !! c = None).
    { destruct (decide (Forall (fun c => c ∈ dom t) (elements one_gene)))
        as [Hall|Hnall].
      - destruct Hog. intros c Hc. rewrite Forall_forall in Hall.
        by apply Hall, elem_of_elements.
      - apply not_Forall_Exists in Hnall; [|apply _].
        apply Exists_exists in Hnall as (c & Hc & Hcn).
        exists c. split; [by apply elem_of_elements|].
        by apply not_elem_of_dom. }
    destruct Hex as (c0 & Hc0 & Hc0n).
    destruct (update_loop_raises have_trait p One (elements one_gene) t)
      as (c & Hc & Hcn & Hrun1).
    { exists c0. split; [by apply elem_of_elements | done]. }
    exists c. split_and!.
    + apply elem_of_union_l. by apply elem_of_elements.
    + done.
    + rewrite Hrun1. reflexivity.
Qed.

Lemma update_unknown_name_witness :
  exists child,
    child ∈ ({["Bob"]} ∪ ∅ : gset string) /\ solo_after_two !! child = None
    /\ update solo_after_two {["Bob"]} ∅ ∅ 0.5 = Raise (KeyError child).
Proof.
  apply (update_unknown_name solo_after_two {["Bob"]} ∅ ∅ 0.5 "Bob").
  - apply elem_of_union_l, elem_of_singleton. reflexivity.
  - vm_compute. reflexivity.
Defined.

Lemma updated_entry_again (one_gene two_genes have_trait : gset string)
    (p p' : Q) (child : string) (e : Entry) :
  updated_entry one_gene two_genes have_trait p' child
    (updated_entry one_gene two_genes have_trait p child e)
  = updated_entry one_gene two_genes have_trait p' child e.
Proof.
  unfold updated_entry, written.
  destruct e as [[g2 g1 g0] [tT tF]].
  repeat case_decide; destruct (bool_decide (child ∈ have_trait));
    reflexivity.
Qed.

(** X4. [update] keeps no history: running it for a hypothesis with
    probability [p] and then again for the same hypothesis with [p'] gives
    the table that the second run alone gives. *)
Theorem update_last_probability_wins (t : gmap string Entry)
    (one_gene two_genes have_trait : gset string) (p p' : Q) :
  one_gene ⊆ dom t -> two_genes ⊆ dom t ->
  (update t one_gene two_genes have_trait p
     ≫= fun t1 => update t1 one_gene two_genes have_trait p')
  = update t one_gene two_genes have_trait p'.
Proof.
  intros Hog Htg.
  destruct (update_table have_trait p t one_gene two_genes Hog Htg)
    as (t1 & Hrun1 & Hlook1).
  assert (Hdom1 : dom t1 = dom t) by exact (lookup_dom_eq t t1 _ Hlook1).
  destruct (update_table have_trait p' t1 one_gene two_genes)
    as (t2 & Hrun2 & Hlook2); [by rewrite Hdom1 | by rewrite Hdom1 |].
  destruct (update_table have_trait p' t one_gene two_genes Hog Htg)
    as (t3 & Hrun3 & Hlook3).
  rewrite Hrun1. cbn. rewrite Hrun2, Hrun3. f_equal.
  apply map_eq. intros child. rewrite Hlook2, Hlook1, Hlook3.
  destruct (t !! child) as [e|]; [|reflexivity].
  cbn. f_equal. apply updated_entry_again.
Qed.

Lemma update_last_probability_wins_witness :
  (update solo_after_two {["Lily"]} ∅ ∅ 0.5
     ≫= fun t1 => update t1 {["Lily"]} ∅ ∅ 0.25)
  = update solo_after_two {["Lily"]} ∅ ∅ 0.25.
Proof.
  apply (update_last_probability_wins solo_after_two {["Lily"]} ∅ ∅ 0.5 0.25).
  - unfold solo_after_two. rewrite dom_singleton_L. reflexivity.
  - apply empty_subseteq.
Defined.

(** ** [joint_probability] in closed form *)

Section JointClosedForm.

Lemma Qpower_succ_nat (c : Q) (n : nat) :
  c ^ Z.of_nat (S n) == c ^ Z.of_nat n * c.
Proof.
  rewrite Nat2Z.inj_succ, <- Z.add_1_r.
  rewrite Qpower_plus' by lia. rewrite Qpower_1_r. reflexivity.
Qed.

Lemma foldl_const_factor_power {A} (c : Q) (l : list A) :
  forall acc,
    foldl (fun acc _ => acc * c) acc l == acc * c ^ Z.of_nat (length l).
Proof.
  induction l as [|x l IH]; intros acc.
  - cbn [foldl length]. change (c ^ Z.of_nat 0) with 1. ring.
  - cbn [foldl length]. rewrite IH, Qpower_succ_nat. ring.
Qed.

Lemma foldl_joint_step_power (one_gene two_genes have_trait : gset string)
    (l : list string) :
  forall acc,
    foldl (joint_step one_gene two_genes have_trait) acc l
    == acc * (PROBS_gene Zero * PROBS_trait Zero false)
             ^ Z.of_nat (length (filter
                  (fun child => child ∉ one_gene ∪ two_genes ∪ have_trait) l)).
Proof.
  induction l as [|x l IH]; intros acc.
  - rewrite filter_nil. cbn [foldl length].
    change (Z.of_nat 0) with 0%Z. rewrite Qpower_0_r. ring.
  - cbn [foldl]. rewrite IH. unfold joint_step. case_decide.
    + rewrite filter_cons_True by done. cbn [length].
      rewrite Qpower_succ_nat. ring.
    + rewrite filter_cons_False by (cbn; intros Hn; contradiction).
      reflexivity.
Qed.

Lemma length_unlisted (people : gmap string Person) (U : gset string) :
  length (filter (fun child => child ∉ U) (map_to_list people).*1)
  = size (dom people ∖ U).
Proof.
  apply Permutation_length, NoDup_Permutation.
  - apply NoDup_filter, NoDup_fst_map_to_list.
  - apply NoDup_elements.
  - intros child.
    rewrite list_elem_of_filter, elem_of_elements, elem_of_difference.
    rewrite (elem_of_keys people), elem_of_dom. tauto.
Qed.

Lemma joint_probability_nonneg (people : gmap string Person)
    (one_gene two_genes have_trait : gset string) :
  0 <= joint_probability people one_gene two_genes have_trait.
Proof.
  unfold joint_probability.
  apply foldl_const_factor_range; [apply factor_one_range|].
  apply foldl_const_factor_range; [apply factor_two_range|].
  apply foldl_joint_step_range. split; discriminate.
Qed.

End JointClosedForm.

(** X5. The value of [joint_probability] is a product of three powers: the
    factor [0.96 * 0.99] for every name of the pedigree that is in none of
    the three sets, [0.01 * 0.65] for every member of [two_genes] and
    [((1 - 0.01)^2 + 0.01^2) * 0.44] for every member of [one_gene], whether
    or not these members are names of the pedigree; a person who is only in
    [have_trait] contributes nothing. *)
Theorem joint_probability_closed_form (people : gmap string Person)
    (one_gene two_genes have_trait : gset string) :
  joint_probability people one_gene two_genes have_trait
  == (PROBS_gene Zero * PROBS_trait Zero false)
       ^ Z.of_nat (size (dom people ∖ (one_gene ∪ two_genes ∪ have_trait)))
     * (PROBS_gene Two * PROBS_trait Two true) ^ Z.of_nat (size two_genes)
     * (((1 - PROBS_mutation) * (1 - PROBS_mutation)
         + PROBS_mutation * PROBS_mutation) * PROBS_trait One false)
       ^ Z.of_nat (size one_gene).
Proof.
  unfold joint_probability.
  rewrite foldl_const_factor_power, foldl_const_factor_power.
  rewrite foldl_joint_step_power, length_unlisted.
  change (length (elements two_genes)) with (size two_genes).
  change (length (elements one_gene)) with (size one_gene).
  ring.
Qed.

(** ** [main] returns a table of distributions for every pedigree *)

Section MainTotal.

Ltac crush_entry :=
  unfold settled_entry, nonneg_entry, updated_entry, written, update_trait in *;
  repeat case_decide;
  repeat match goal with
         | |- context [bool_decide ?P] => destruct (bool_decide P)
         end;
  cbn in *; repeat split; lra.

Lemma updated_entry_nonneg (one_gene two_genes have_trait : gset string)
    (p : Q) (child : string) (e : Entry) :
  0 <= p -> nonneg_entry e ->
  nonneg_entry (updated_entry one_gene two_genes have_trait p child e).
Proof.
  intros Hp He. destruct e as [[g2 g1 g0] [tT tF]]. crush_entry.
Qed.

Lemma updated_entry_settled (one_gene two_genes have_trait : gset string)
    (p : Q) (child : string) (e : Entry) :
  0 <= p -> settled_entry e ->
  settled_entry (updated_entry one_gene two_genes have_trait p child e).
Proof.
  intros Hp He. destruct e as [[g2 g1 g0] [tT tF]]. crush_entry.
Qed.

Lemma updated_entry_settles (one_gene two_genes have_trait : gset string)
    (p : Q) (child : string) (e : Entry) :
  0 <= p -> nonneg_entry e -> child ∈ one_gene ->
  settled_entry (updated_entry one_gene two_genes have_trait p child e).
Proof.
  intros Hp He Hc. destruct e as [[g2 g1 g0] [tT tF]].
  unfold updated_entry. rewrite (decide_True _ _ Hc).
  rewrite (decide_False (P := child ∉ one_gene ∪ two_genes ∪ have_trait)).
  - crush_entry.
  - intros Hn. apply Hn, elem_of_union_l, elem_of_union_l, Hc.
Qed.

Lemma update_table_inv (D S : gset string) (t : gmap string Entry)
    (one_gene two_genes have_trait : gset string) (p : Q) :
  table_inv D S t -> one_gene ⊆ D -> two_genes ⊆ D -> 0 <= p ->
  exists t',
    update t one_gene two_genes have_trait p = Ok t'
    /\ table_inv D (S ∪ one_gene) t'.
Proof.
  intros [Hdom Hinv] Hog Htg Hp.
  destruct (update_table have_trait p t one_gene two_genes)
    as (t' & Hrun & Hlook); [by rewrite Hdom | by rewrite Hdom |].
  exists t'. split; [exact Hrun|]. split.
  - rewrite <- Hdom. exact (lookup_dom_eq t t' _ Hlook).
  - intros child e' He'. rewrite Hlook in He'.
    destruct (t !! child) as [e|] eqn:He; [|discriminate He'].
    injection He' as <-. destruct (Hinv child e He) as [Hnn Hset].
    split; [by apply updated_entry_nonneg|].
    intros [Hs|Hs]%elem_of_union.
    + apply updated_entry_settled; [done|]. by apply Hset.
    + by apply updated_entry_settles.
Qed.

Lemma table_inv_mono (D S S' : gset string) (t : gmap string Entry) :
  S' ⊆ S -> table_inv D S t -> table_inv D S' t.
Proof.
  intros Hsub [Hdom Hinv]. split; [exact Hdom|].
  intros child e He. destruct (Hinv child e He) as [Hnn Hset].
  split; [exact Hnn|]. intros Hc. by apply Hset, Hsub.
Qed.

Lemma main_loop_inv (people : gmap string Person) (D : gset string)
    (hs : list hypothesis) :
  (forall one_gene two_genes have_trait,
     (one_gene, two_genes, have_trait) ∈ hs ->
     one_gene ⊆ D /\ two_genes ⊆ D) ->
  forall (S : gset string) (t : gmap string Entry),
    table_inv D S t ->
    exists t',
      for_each (main_step people) hs t = Ok t'
      /\ table_inv D (S ∪ ⋃ ((fun h : hypothesis => h.1.1) <$> hs)) t'.
Proof.
  induction hs as [|[[og tg] ht] hs IH]; intros Hvalid S t Hinv.
  - exists t. split; [reflexivity|].
    apply (table_inv_mono D S); [|exact Hinv].
    cbn. rewrite union_empty_r_L. reflexivity.
  - destruct (Hvalid og tg ht) as [Hog Htg]; [left|].
    destruct (update_table_inv D S t og tg ht
                (joint_probability people og tg ht) Hinv Hog Htg)
      as (t1 & Hrun1 & Hinv1).
    { apply joint_probability_nonneg. }
    destruct (IH (fun a b c Hin => Hvalid a b c (list_elem_of_further _ _ _ Hin))
                 (S ∪ og) t1 Hinv1) as (t' & Hrun & Hinv').
    exists t'. split.
    + rewrite for_each_cons.
      change (main_step people t (og, tg, ht))
        with (update t og tg ht (joint_probability people og tg ht)).
      rewrite Hrun1. exact Hrun.
    + rewrite fmap_cons, union_list_cons. cbn [fst].
      rewrite (assoc_L (∪)). exact Hinv'.
Qed.

Lemma observed_with_trait_passes (people : gmap string Person) :
  observed_with_trait people ⊆ dom people
  /\ fails_evidence people (dom people) (observed_with_trait people) = false.
Proof.
  unfold observed_with_trait. split.
  - apply subseteq_dom, map_filter_subseteq.
  - apply fails_evidence_false. intros person row t Hrow Ht.
    rewrite elem_of_dom. split.
    + intros [row' [Hrow' Htrue]%map_lookup_filter_Some]. cbn in Htrue.
      congruence.
    + intros ->. exists row. apply map_lookup_filter_Some. done.
Qed.

Lemma settled_totals (e : Entry) :
  settled_entry e -> 0 < total_gene e /\ 0 < total_trait e.
Proof.
  destruct e as [[g2 g1 g0] [tT tF]].
  unfold settled_entry, nonneg_entry, total_gene, total_trait. cbn.
  intros. split; lra.
Qed.

Lemma quotients_nonneg (e : Entry) :
  settled_entry e -> nonneg_entry (quotients e).
Proof.
  intros He. destruct (settled_totals e He) as [Hg Ht].
  destruct He as [(H2 & H1 & H0 & HT & HF) _].
  unfold nonneg_entry, quotients. cbn.
  split_and!; apply Qle_shift_div_l; try assumption; lra.
Qed.

End MainTotal.

(** The whole run of [main]: the loop nest leaves a table in which every
    person has been written for one copy, and [normalize] returns on it. *)
Lemma main_table (people : gmap string Person) :
  exists t,
    main people = Ok t
    /\ dom t = dom people
    /\ forall child e, t !! child = Some e ->
         gene2 (gene e) + gene1 (gene e) + gene0 (gene e) == 1
         /\ traitT (trait_ e) + traitF (trait_ e) == 1
         /\ nonneg_entry e.
Proof.
  destruct (main_loop_inv people (dom people) (hypotheses people))
    with (S := (∅ : gset string)) (t := init_probabilities people)
    as (t1 & Hrun1 & [Hdom1 Hinv1]).
  { intros og tg ht (_ & _ & Hog & Htg)%elem_of_hypotheses.
    split; [exact Hog|]. intros x Hx. apply Htg, elem_of_difference in Hx. tauto. }
  { split.
    - unfold init_probabilities. apply dom_fmap_L.
    - intros child e He. unfold init_probabilities in He.
      rewrite lookup_fmap in He.
      destruct (people !! child); [|discriminate He].
      injection He as <-. split.
      + unfold nonneg_entry, zero_entry. cbn. repeat split; lra.
      + intros Hc. by apply not_elem_of_empty in Hc. }
  assert (Hsettled : forall child e, t1 !! child = Some e -> settled_entry e).
  { intros child e He. apply (Hinv1 child e He).
    apply elem_of_union_r, elem_of_union_list.
    exists (dom people). split.
    - apply list_elem_of_fmap.
      exists (dom people, ∅, observed_with_trait people). split; [reflexivity|].
      apply elem_of_hypotheses.
      destruct (observed_with_trait_passes people) as [Hsub Hev].
      split_and!; [exact Hsub | exact Hev | reflexivity | apply empty_subseteq].
    - rewrite <- Hdom1. apply elem_of_dom. eauto. }
  destruct (normalize_loop_ok (map_to_list t1).*1
              (NoDup_fst_map_to_list t1) t1) as (t & Hrun & Hin & Hout).
  { intros child [e He]%elem_of_keys. exists e. split; [done|].
    destruct (settled_totals e (Hsettled child e He)) as [Hg Ht].
    split; intros Hz; rewrite Hz in *; lra. }
  assert (Hlook : forall child, t !! child = quotients <$> t1 !! child).
  { intros child. destruct (t1 !! child) as [e|] eqn:He.
    - rewrite Hin by (apply elem_of_keys; eauto). rewrite He. reflexivity.
    - rewrite Hout, He; [reflexivity|].
      rewrite elem_of_keys, He. by intros [? ?]. }
  exists t. split_and!.
  - unfold main. rewrite Hrun1. exact Hrun.
  - rewrite <- Hdom1. exact (lookup_dom_eq t1 t _ Hlook).
  - intros child e' He'. rewrite Hlook in He'.
    destruct (t1 !! child) as [e|] eqn:He; [|discriminate He'].
    injection He' as <-.
    pose proof (Hsettled child e He) as Hs.
    destruct (settled_totals e Hs) as [Hg Ht].
    split_and!.
    + rewrite <- total_gene_sum.
      apply quotients_total_gene. intros Hz. rewrite Hz in Hg. lra.
    + rewrite <- total_trait_sum.
      apply quotients_total_trait. intros Hz. rewrite Hz in Ht. lra.
    + by apply quotients_nonneg.
Qed.

(** C10, amended.  [main] carries no structural validation and rejects no
    pedigree: for every [people] dictionary, malformed or not, it runs
    enumeration, accumulation and normalization without exception and
    returns a table over the names; and it never reads the [mother] and
    [father] fields, so rewriting the rows in any way that keeps the
    observed traits (in particular, blanking or redirecting parent
    references) leaves its result exactly as it was. *)
Theorem main_ignores_parents (f : Person -> Person)
    (people : gmap string Person) :
  (exists t, main people = Ok t /\ dom t = dom people)
  /\ ((forall row, trait (f row) = trait row) ->
      main (f <$> people) = main people).
Proof.
  split.
  - destruct (main_table people) as (t & Hrun & Hdom & _).
    exists t. split; [exact Hrun | exact Hdom].
  - intros Hf. unfold main.
    rewrite (hypotheses_fmap f Hf), init_probabilities_fmap.
    rewrite (for_each_ext (main_step (f <$> people)) (main_step people));
      [reflexivity|].
    intros s h. apply main_step_fmap.
Qed.

Lemma main_ignores_parents_witness :
  (exists t, main dangling = Ok t /\ dom t = dom dangling)
  /\ main (erase_parents <$> dangling) = main dangling
  /\ erase_parents <$> dangling = {[ "Harry" := founder "Harry" None ]}.
Proof.
  destruct (main_ignores_parents erase_parents dangling) as [Hruns Hsame].
  split; [exact Hruns|]. split.
  - apply Hsame. intros row. reflexivity.
  - unfold dangling. rewrite map_fmap_singleton. reflexivity.
Defined.

(** X6. For every pedigree [main] raises nothing: it returns a table over
    the names of the pedigree in which no bucket is negative and, for every
    person, the three gene buckets sum to [1] and the two trait buckets sum
    to [1]. *)
Theorem main_returns_distributions (people : gmap string Person) :
  exists t,
    main people = Ok t
    /\ dom t = dom people
    /\ forall child e, t !! child = Some e ->
         gene2 (gene e) + gene1 (gene e) + gene0 (gene e) == 1
         /\ traitT (trait_ e) + traitF (trait_ e) == 1
         /\ 0 <= gene2 (gene e) /\ 0 <= gene1 (gene e) /\ 0 <= gene0 (gene e)
         /\ 0 <= traitT (trait_ e) /\ 0 <= traitF (trait_ e).
Proof.
  destruct (main_table people) as (t & Hrun & Hdom & Hall).
  exists t. split; [exact Hrun|]. split; [exact Hdom|].
  intros child e He.
  destruct (Hall child e He) as (Hg & Ht & H2 & H1 & H0 & HT & HF).
  split_and!; assumption.
Qed.

(** X7. The evidence of a pedigree is always satisfiable: the set of the
    persons observed with the trait is a subset of the names that passes the
    filter of [main], so the loop nest runs its body at least once. *)
Theorem evidence_always_satisfiable (people : gmap string Person) :
  observed_with_trait people ⊆ dom people
  /\ fails_evidence people (dom people) (observed_with_trait people) = false
  /\ (∅, ∅, observed_with_trait people) ∈ hypotheses people.
Proof.
  destruct (observed_with_trait_passes people) as [Hsub Hev].
  split_and!; [exact Hsub | exact Hev |].
  apply elem_of_hypotheses.
  split_and!; [exact Hsub | exact Hev | apply empty_subseteq
              | apply empty_subseteq].
Qed.

(** ** [normalize]: its only exception, and running it twice *)

Section NormalizeTwice.

Lemma normalize_cases (t : gmap string Entry) :
  (forall child e, t !! child = Some e ->
     ~ total_gene e == 0 /\ ~ total_trait e == 0)
  \/ (exists child e, t !! child = Some e
        /\ (total_gene e == 0 \/ total_trait e == 0)).
Proof.
  induction t as [|child e t Hnone IH] using map_ind.
  - left. intros child e He. by rewrite lookup_empty in He.
  - destruct IH as [Hall|(c & e' & He' & Hz)].
    + destruct (Qeq_dec (total_gene e) 0) as [Hg|Hg].
      { right. exists child, e. rewrite lookup_insert_eq. tauto. }
      destruct (Qeq_dec (total_trait e) 0) as [Ht|Ht].
      { right. exists child, e. rewrite lookup_insert_eq. tauto. }
      left. intros c e' [[-> ->]|[_ He']]%lookup_insert_Some; [done|].
      by apply (Hall c).
    + right. exists c, e'. split; [|exact Hz].
      rewrite lookup_insert_ne; [done|]. congruence.
Qed.

Lemma normalize_table (t : gmap string Entry) :
  (forall child e, t !! child = Some e ->
     ~ total_gene e == 0 /\ ~ total_trait e == 0) ->
  exists t',
    normalize t = Ok t'
    /\ forall child, t' !! child = quotients <$> t !! child.
Proof.
  intros Hall. unfold normalize.
  destruct (normalize_loop_ok (map_to_list t).*1
              (NoDup_fst_map_to_list t) t) as (t' & Hrun & Hin & Hout).
  { intros child [e He]%elem_of_keys. exists e. split; [done|].
    by apply (Hall child). }
  exists t'. split; [exact Hrun|].
  intros child. destruct (t !! child) as [e|] eqn:He.
  - rewrite Hin by (apply elem_of_keys; eauto). rewrite He. reflexivity.
  - rewrite Hout, He; [reflexivity|].
    rewrite elem_of_keys, He. by intros [? ?].
Qed.

Lemma normalize_raises (t : gmap string Entry) (child : string) (e : Entry) :
  t !! child = Some e -> total_gene e == 0 \/ total_trait e == 0 ->
  normalize t = Raise ZeroDivisionError.
Proof.
  intros He Hz. unfold normalize. apply normalize_loop_raises.
  - apply NoDup_fst_map_to_list.
  - intros c Hc. by apply elem_of_keys.
  - exists child, e. split_and!; [apply elem_of_keys; eauto | done | done].
Qed.


End NormalizeTwice.

(** X8. On a table without negative buckets [normalize] either returns a
    table with the same names or raises [ZeroDivisionError]; it raises no
    other exception, and it raises exactly when the gene buckets or the
    trait buckets of some person sum to zero. *)
Theorem normalize_outcomes (t : gmap string Entry) :
  (forall child e, t !! child = Some e -> nonneg_entry e) ->
  (exists t', normalize t = Ok t' /\ dom t' = dom t
              /\ forall child e, t !! child = Some e -> sums_nonzero e)
  \/ (normalize t = Raise ZeroDivisionError
      /\ exists child e, t !! child = Some e
           /\ (gene2 (gene e) + gene1 (gene e) + gene0 (gene e) == 0
               \/ traitT (trait_ e) + traitF (trait_ e) == 0)).
Proof.
  intros _.
  destruct (normalize_cases t) as [Hall|(child & e & He & Hz)].
  - left. destruct (normalize_table t Hall) as (t' & Hrun & Hlook).
    exists t'. split_and!; [exact Hrun | |].
    + exact (lookup_dom_eq t t' (fun _ => quotients) Hlook).
    + intros child e He. unfold sums_nonzero.
      rewrite <- total_gene_sum, <- total_trait_sum. by apply (Hall child).
  - right. split; [exact (normalize_raises t child e He Hz)|].
    exists child, e. split; [exact He|].
    rewrite <- total_gene_sum, <- total_trait_sum. exact Hz.
Qed.

Lemma normalize_outcomes_witness :
  (exists t', normalize solo_after_two = Ok t' /\ dom t' = dom solo_after_two
              /\ forall child e, solo_after_two !! child = Some e ->
                   sums_nonzero e)
  \/ (normalize solo_after_two = Raise ZeroDivisionError
      /\ exists child e, solo_after_two !! child = Some e
           /\ (gene2 (gene e) + gene1 (gene e) + gene0 (gene e) == 0
               \/ traitT (trait_ e) + traitF (trait_ e) == 0)).
Proof.
  apply (normalize_outcomes solo_after_two).
  intros child e He. by apply (solo_after_two_entry child).
Defined.



(** ** [load_data]: names, and rows that share a name *)

Section LoadData.

Lemma load_data_snoc (rows : list CsvRow) (row : CsvRow) :
  load_data (rows ++ [row])
  = <[csv_name row := person_of_row row]> (load_data rows).
Proof. unfold load_data. rewrite foldl_snoc. reflexivity. Qed.

Lemma load_data_lookup (rows : list CsvRow) (key : string) :
  load_data rows !! key
  = person_of_row <$> last (filter (fun row => csv_name row = key) rows).
Proof.
  induction rows as [|row rows IH] using rev_ind.
  - reflexivity.
  - rewrite load_data_snoc, filter_app.
    destruct (decide (csv_name row = key)) as [Heq|Hne].
    + rewrite filter_cons_True, filter_nil by done.
      rewrite last_snoc, Heq, lookup_insert_eq. reflexivity.
    + rewrite filter_cons_False, filter_nil, app_nil_r by done.
      rewrite lookup_insert_ne by done. exact IH.
Qed.

End LoadData.

(** X10. The keys of the dictionary [load_data] builds are the names that
    occur in the rows, and every person is stored under its own name. *)
Theorem load_data_names (rows : list CsvRow) :
  dom (load_data rows) = list_to_set (csv_name <$> rows)
  /\ forall key person, load_data rows !! key = Some person ->
       name person = key.
Proof.
  split.
  - apply set_eq. intros key.
    rewrite elem_of_dom, load_data_lookup, fmap_is_Some.
    rewrite elem_of_list_to_set, list_elem_of_fmap. split.
    + intros [row Hlast]. apply last_Some_elem_of in Hlast.
      apply list_elem_of_filter in Hlast as [Hname Hin]. eauto.
    + intros (row & -> & Hin).
      destruct (last (filter (fun r => csv_name r = csv_name row) rows))
        as [r|] eqn:Hlast; [eauto|].
      apply last_None in Hlast.
      assert (Hf : row ∈ filter (fun r => csv_name r = csv_name row) rows)
        by (apply list_elem_of_filter; done).
      rewrite Hlast in Hf. by apply elem_of_nil in Hf.
  - intros key person Hlook. rewrite load_data_lookup in Hlook.
    apply fmap_Some in Hlook as (row & Hlast & ->).
    apply last_Some_elem_of, list_elem_of_filter in Hlast as [Hname _].
    exact Hname.
Qed.

(** X11. When several rows carry the same name the last one wins: the
    person stored under a name is built from the last row with that name,
    with a blank mother or father read as no parent and a trait text other
    than ["1"] and ["0"] read as unknown. *)
Theorem load_data_last_row_wins (rows : list CsvRow) (key : string) :
  load_data rows !! key
  = (fun row =>
       {| name := key;
          mother := if decide (csv_mother row = "") then None
                    else Some (csv_mother row);
          father := if decide (csv_father row = "") then None
                    else Some (csv_father row);
          trait := if decide (csv_trait row = "1") then Some true
                   else if decide (csv_trait row = "0") then Some false
                   else None |})
    <$> last (filter (fun row => csv_name row = key) rows).
Proof.
  rewrite load_data_lookup.
  destruct (last (filter (fun row => csv_name row = key) rows))
    as [row|] eqn:Hlast; [|reflexivity].
  apply last_Some_elem_of, list_elem_of_filter in Hlast as [Hname _].
  cbn. unfold person_of_row. rewrite Hname. reflexivity.
Qed.

(** ** [transition_model] *)

Example transition_model_example :
  exists d,
    transition_model example_corpus "4.html" 0.85 = Ok d
    /\ (exists v, d !! "4.html" = Some v /\ v == 0.0375)
    /\ (exists v, d !! "2.html" = Some v /\ v == 0.8875)
    /\ (exists v, d !! "1.html" = Some v /\ v == 0.0375)
    /\ (exists v, d !! "3.html" = Some v /\ v == 0.0375).
Proof.
  eexists. split; [vm_compute; reflexivity|].
  split_and!; eexists; (split; [vm_compute; reflexivity|]);
    vm_compute; reflexivity.
Qed.

Section TransitionModel.

Lemma of_int_nonzero (n : nat) : n <> 0%nat -> ~ of_int n == 0.
Proof.
  intros Hn Hz. unfold of_int, Qeq in Hz. cbn in Hz. lia.
Qed.

Lemma of_int_succ (n : nat) : of_int (S n) == of_int n + 1.
Proof.
  unfold of_int. rewrite Nat2Z.inj_succ, <- Z.add_1_r, inject_Z_plus.
  reflexivity.
Qed.

Lemma foldl_insert_const {V} (r : V) (l : list string) :
  forall (d : gmap string V) (p : string),
    foldl (fun d p => <[p := r]> d) d l !! p
    = if decide (p ∈ l) then Some r else d !! p.
Proof.
  induction l as [|x l IH]; intros d p; cbn [foldl].
  - rewrite decide_False; [reflexivity | apply not_elem_of_nil].
  - rewrite IH. destruct (decide (p ∈ l)) as [Hp|Hp].
    + rewrite decide_True by (by right). reflexivity.
    + destruct (decide (p = x)) as [->|Hne].
      * rewrite decide_True by left. apply lookup_insert_eq.
      * rewrite decide_False by (intros [?|?]%elem_of_cons; contradiction).
        by apply lookup_insert_ne.
Qed.

Lemma initial_distribution {V} (r : Q) (corpus : gmap string V) (p : string) :
  foldl (fun d p => <[p := r]> d) (∅ : gmap string Q)
    (map_to_list corpus).*1 !! p
  = (fun _ => r) <$> corpus !! p.
Proof.
  rewrite foldl_insert_const.
  destruct (corpus !! p) as [v|] eqn:Hp.
  - rewrite decide_True by (apply elem_of_keys; eauto). reflexivity.
  - rewrite decide_False; [apply lookup_empty|].
    rewrite elem_of_keys, Hp. by intros [? ?].
Qed.

Lemma add_link_present (link_prob : Q) (d : gmap string Q) (link : string)
    (v : Q) :
  d !! link = Some v ->
  add_link link_prob d link = Ok (<[link := v + link_prob]> d).
Proof. intros Hv. unfold add_link. rewrite Hv. reflexivity. Qed.

Lemma add_link_absent (link_prob : Q) (d : gmap string Q) (link : string) :
  d !! link = None -> add_link link_prob d link = Raise (KeyError link).
Proof. intros Hv. unfold add_link. rewrite Hv. reflexivity. Qed.

Variable corpus : gmap string (gset string).
Variable page : string.
Variable damping_factor : Q.
Variable links : gset string.

Hypothesis page_links : corpus !! page = Some links.
Hypothesis links_nonempty : links <> ∅.

Lemma size_links_nonzero : ~ of_int (size links) == 0.
Proof.
  apply of_int_nonzero. rewrite size_non_empty_iff.
  intros Heq. apply links_nonempty. by apply leibniz_equiv.
Qed.

Lemma size_corpus_nonzero : ~ of_int (size corpus) == 0.
Proof.
  apply of_int_nonzero. apply (map_size_ne_0_lookup_2 corpus page).
  rewrite page_links. eauto.
Qed.

(** The two divisions succeed, and the loop over the links starts from the
    distribution that gives every page the random-jump share. *)
Lemma transition_model_unfold :
  transition_model corpus page damping_factor
  = for_each (add_link (damping_factor * (1 / of_int (size links))))
      (elements links)
      (foldl (fun d p =>
                <[p := (1 - damping_factor) * (1 / of_int (size corpus))]> d)
         ∅ (map_to_list corpus).*1).
Proof.
  unfold transition_model. rewrite page_links.
  rewrite (py_div_nonzero _ _ size_links_nonzero). cbn.
  rewrite (py_div_nonzero _ _ size_corpus_nonzero). reflexivity.
Qed.

Lemma transition_model_table :
  links ⊆ dom corpus ->
  exists d,
    transition_model corpus page damping_factor = Ok d
    /\ forall p,
         d !! p
         = (fun _ =>
              if decide (p ∈ links)
              then (1 - damping_factor) * (1 / of_int (size corpus))
                   + damping_factor * (1 / of_int (size links))
              else (1 - damping_factor) * (1 / of_int (size corpus)))
           <$> corpus !! p.
Proof.
  intros Hsub. rewrite transition_model_unfold.
  set (l := damping_factor * (1 / of_int (size links))).
  set (r := (1 - damping_factor) * (1 / of_int (size corpus))).
  destruct (for_each_pointwise (add_link l) (fun _ v => v + l)
              (add_link_present l) (elements links) (NoDup_elements links)
              (foldl (fun d p => <[p := r]> d) ∅ (map_to_list corpus).*1))
    as (d & Hrun & Hlook).
  { intros p Hp%elem_of_elements. rewrite initial_distribution, fmap_is_Some.
    by apply elem_of_dom, Hsub. }
  exists d. split; [exact Hrun|].
  intros p. rewrite Hlook, initial_distribution.
  destruct (decide (p ∈ links)) as [Hp|Hp].
  - rewrite decide_True by (by apply elem_of_elements).
    by destruct (corpus !! p).
  - rewrite decide_False by (by rewrite elem_of_elements). reflexivity.
Qed.

Lemma transition_model_stray :
  (exists link, link ∈ links /\ corpus !! link = None) ->
  exists link,
    link ∈ links /\ corpus !! link = None
    /\ transition_model corpus page damping_factor = Raise (KeyError link).
Proof.
  intros (link & Hin & Hnone). rewrite transition_model_unfold.
  set (l := damping_factor * (1 / of_int (size links))).
  set (r := (1 - damping_factor) * (1 / of_int (size corpus))).
  destruct (for_each_absent (add_link l) (fun _ v => v + l)
              (add_link_present l) (elements links) (add_link_absent l)
              (foldl (fun d p => <[p := r]> d) ∅ (map_to_list corpus).*1))
    as (link' & Hin' & Hnone' & Hrun).
  { exists link. split; [by apply elem_of_elements|].
    rewrite initial_distribution, Hnone. reflexivity. }
  exists link'. split_and!.
  - by apply elem_of_elements.
  - rewrite initial_distribution in Hnone'. by apply fmap_None in Hnone'.
  - exact Hrun.
Qed.

End TransitionModel.

Section DistributionSum.

Lemma Qsum_permutation (l1 l2 : list Q) : l1 ≡ₚ l2 -> Qsum l1 == Qsum l2.
Proof.
  unfold Qsum.
  induction 1 as [|x l1 l2 _ IH|x y l|l1 l2 l3 _ IH1 _ IH2]; cbn.
  - reflexivity.
  - rewrite IH. reflexivity.
  - ring.
  - rewrite IH1. exact IH2.
Qed.

Lemma values_permutation {V} (corpus : gmap string V) (d : gmap string Q)
    (v : string -> Q) :
  (forall p, d !! p = (fun _ => v p) <$> corpus !! p) ->
  (map_to_list d).*2 ≡ₚ v <$> (map_to_list corpus).*1.
Proof.
  intros Hlook.
  assert (Hperm : map_to_list d
                  ≡ₚ (fun p => (p, v p)) <$> (map_to_list corpus).*1).
  { apply NoDup_Permutation.
    - apply NoDup_map_to_list.
    - apply NoDup_fmap_2_strong; [|apply NoDup_fst_map_to_list].
      intros p1 p2 _ _ Heq. by injection Heq.
    - intros [p x]. rewrite elem_of_map_to_list, Hlook, list_elem_of_fmap.
      split.
      + intros (w & Hw & ->)%fmap_Some. exists p. split; [reflexivity|].
        apply elem_of_keys. eauto.
      + intros (p' & Heq & [w Hw]%elem_of_keys). simplify_eq.
        rewrite Hw. reflexivity. }
  rewrite Hperm, <- list_fmap_compose. reflexivity.
Qed.

Lemma Qsum_shares (links : gset string) (r l : Q) (ks : list string) :
  Qsum ((fun p => if decide (p ∈ links) then r + l else r) <$> ks)
  == of_int (length ks) * r
     + of_int (length (filter (fun p => p ∈ links) ks)) * l.
Proof.
  induction ks as [|k ks IH].
  - rewrite filter_nil. cbn. unfold of_int. cbn. ring.
  - rewrite fmap_cons. cbn [Qsum foldr length].
    change (foldr Qplus 0 ?x) with (Qsum x). rewrite IH, of_int_succ.
    destruct (decide (k ∈ links)) as [Hk|Hk].
    + rewrite filter_cons_True by done. cbn [length]. rewrite of_int_succ.
      ring.
    + rewrite filter_cons_False by done. ring.
Qed.

Lemma length_linked {V} (corpus : gmap string V) (links : gset string) :
  links ⊆ dom corpus ->
  length (filter (fun p => p ∈ links) (map_to_list corpus).*1) = size links.
Proof.
  intros Hsub. apply Permutation_length, NoDup_Permutation.
  - apply NoDup_filter, NoDup_fst_map_to_list.
  - apply NoDup_elements.
  - intros p. rewrite list_elem_of_filter, elem_of_elements, elem_of_keys.
    split; [tauto|]. intros Hp. split; [exact Hp|].
    by apply elem_of_dom, Hsub.
Qed.

Lemma unit_share (n : nat) :
  n <> 0%nat -> 0 <= 1 / of_int n <= 1.
Proof.
  intros Hn.
  assert (Hone : 1 <= of_int n).
  { unfold of_int, Qle. cbn. lia. }
  split.
  - apply Qle_shift_div_l; lra.
  - apply Qle_shift_div_r; lra.
Qed.

End DistributionSum.

Section ExampleCorpus.

Lemma example_page :
  example_corpus !! "4.html" = Some ({["2.html"]} : gset string).
Proof. apply lookup_insert_eq. Qed.

Lemma example_links_nonempty : ({["2.html"]} : gset string) <> ∅.
Proof.
  intros Heq. apply (not_elem_of_empty (C := gset string) "2.html").
  rewrite <- Heq. apply elem_of_singleton. reflexivity.
Qed.

Lemma example_links_known : ({["2.html"]} : gset string) ⊆ dom example_corpus.
Proof.
  apply singleton_subseteq_l, elem_of_dom. eexists. vm_compute. reflexivity.
Qed.

End ExampleCorpus.

Lemma stray_element (X D : gset string) :
  ~ X ⊆ D -> exists x, x ∈ X /\ x ∉ D.
Proof.
  intros Hn.
  destruct (decide (Forall (fun x => x ∈ D) (elements X))) as [Hall|Hnall].
  - destruct Hn. intros x Hx. rewrite Forall_forall in Hall.
    by apply Hall, elem_of_elements.
  - apply not_Forall_Exists in Hnall; [|apply _].
    apply Exists_exists in Hnall as (x & Hx & Hxn).
    exists x. split; [by apply elem_of_elements | exact Hxn].
Qed.

(** X12. [transition_model] returns a distribution exactly when the page is
    a key of the corpus, has at least one link, and every link of the page
    is a key of the corpus.  In every other case it raises: [KeyError] for a
    page that is no key, [ZeroDivisionError] for a page without links. *)
Theorem transition_model_returns_iff
    (corpus : gmap string (gset string)) (page : string) (damping_factor : Q) :
  ((exists d, transition_model corpus page damping_factor = Ok d)
   <-> exists links, corpus !! page = Some links /\ links <> ∅
                     /\ links ⊆ dom corpus)
  /\ (corpus !! page = None ->
      transition_model corpus page damping_factor = Raise (KeyError page))
  /\ (corpus !! page = Some ∅ ->
      transition_model corpus page damping_factor = Raise ZeroDivisionError).
Proof.
  assert (Hnone : corpus !! page = None ->
            transition_model corpus page damping_factor
            = Raise (KeyError page)).
  { unfold transition_model. intros ->. reflexivity. }
  assert (Hempty : corpus !! page = Some ∅ ->
            transition_model corpus page damping_factor
            = Raise ZeroDivisionError).
  { unfold transition_model. intros ->. reflexivity. }
  split_and!; [|exact Hnone | exact Hempty].
  split.
  - intros [d Hrun].
    destruct (corpus !! page) as [links|] eqn:Hpage;
      [|rewrite Hnone in Hrun by reflexivity; discriminate Hrun].
    exists links.
    destruct (decide (links = ∅)) as [->|Hne];
      [rewrite Hempty in Hrun by reflexivity; discriminate Hrun|].
    split_and!; [reflexivity | exact Hne |].
    destruct (decide (links ⊆ dom corpus)) as [Hsub|Hnsub]; [exact Hsub|].
    destruct (stray_element links (dom corpus) Hnsub) as (x & Hx & Hxn).
    destruct (transition_model_stray corpus page damping_factor links
                Hpage Hne) as (link & _ & _ & Hraise).
    { exists x. split; [exact Hx | by apply not_elem_of_dom]. }
    rewrite Hraise in Hrun. discriminate Hrun.
  - intros (links & Hpage & Hne & Hsub).
    destruct (transition_model_table corpus page damping_factor links
                Hpage Hne Hsub) as (d & Hrun & _).
    exists d. exact Hrun.
Qed.

Lemma transition_model_returns_iff_witness :
  (exists d, transition_model example_corpus "4.html" 0.85 = Ok d)
  /\ transition_model example_corpus "5.html" 0.85 = Raise (KeyError "5.html")
  /\ transition_model (<["5.html" := ∅]> example_corpus) "5.html" 0.85
     = Raise ZeroDivisionError.
Proof.
  split_and!.
  - apply (proj1 (transition_model_returns_iff example_corpus "4.html" 0.85)).
    exists {["2.html"]}.
    split_and!; [apply example_page | apply example_links_nonempty
                | apply example_links_known].
  - apply (proj2 (transition_model_returns_iff example_corpus "5.html" 0.85)).
    vm_compute. reflexivity.
  - apply (proj2 (transition_model_returns_iff
                    (<["5.html" := ∅]> example_corpus) "5.html" 0.85)).
    apply lookup_insert_eq.
Defined.

(** X13. If the page has links and one of them is no page of the corpus,
    [transition_model] raises [KeyError] for such a link. *)
Theorem transition_model_stray_link
    (corpus : gmap string (gset string)) (page : string) (damping_factor : Q)
    (links : gset string) (stray : string) :
  corpus !! page = Some links ->
  stray ∈ links -> corpus !! stray = None ->
  exists link,
    link ∈ links /\ corpus !! link = None
    /\ transition_model corpus page damping_factor = Raise (KeyError link).
Proof.
  intros Hpage Hin Hnone.
  apply (transition_model_stray corpus page damping_factor links Hpage).
  - intros ->. by apply not_elem_of_empty in Hin.
  - eauto.
Qed.

Lemma transition_model_stray_link_witness :
  exists link,
    link ∈ ({["9.html"]} : gset string)
    /\ ({["1.html" := {["9.html"]}]} : gmap string (gset string)) !! link = None
    /\ transition_model {["1.html" := {["9.html"]}]} "1.html" 0.85
       = Raise (KeyError link).
Proof.
  apply (transition_model_stray_link {["1.html" := {["9.html"]}]} "1.html" 0.85
           {["9.html"]} "9.html").
  - apply lookup_singleton_eq.
  - apply elem_of_singleton. reflexivity.
  - vm_compute. reflexivity.
Defined.

(** X14. If the page has at least one link and all its links are pages of
    the corpus, [transition_model] returns a distribution over exactly the
    pages of the corpus: a linked page gets
    [(1 - d) * (1 / N) + d * (1 / L)] and any other page [(1 - d) * (1 / N)],
    for [N] pages in the corpus and [L] links on the page. *)
Theorem transition_model_shares
    (corpus : gmap string (gset string)) (page : string) (damping_factor : Q)
    (links : gset string) :
  corpus !! page = Some links -> links <> ∅ -> links ⊆ dom corpus ->
  exists d,
    transition_model corpus page damping_factor = Ok d
    /\ dom d = dom corpus
    /\ forall p, p ∈ dom corpus ->
         d !! p
         = Some (if decide (p ∈ links)
                 then (1 - damping_factor) * (1 / of_int (size corpus))
                      + damping_factor * (1 / of_int (size links))
                 else (1 - damping_factor) * (1 / of_int (size corpus))).
Proof.
  intros Hpage Hne Hsub.
  destruct (transition_model_table corpus page damping_factor links
              Hpage Hne Hsub) as (d & Hrun & Hlook).
  exists d. split_and!; [exact Hrun | |].
  - apply set_eq. intros p. rewrite !elem_of_dom, Hlook, fmap_is_Some.
    reflexivity.
  - intros p [w Hw]%elem_of_dom. rewrite Hlook, Hw. reflexivity.
Qed.

(** X15. Under the same conditions the values of the distribution that
    [transition_model] returns sum to [1], whatever the damping factor. *)
Theorem transition_model_sums_to_one
    (corpus : gmap string (gset string)) (page : string) (damping_factor : Q)
    (links : gset string) :
  corpus !! page = Some links -> links <> ∅ -> links ⊆ dom corpus ->
  exists d,
    transition_model corpus page damping_factor = Ok d
    /\ total_probability d == 1.
Proof.
  intros Hpage Hne Hsub.
  destruct (transition_model_table corpus page damping_factor links
              Hpage Hne Hsub) as (d & Hrun & Hlook).
  exists d. split; [exact Hrun|]. unfold total_probability.
  rewrite (Qsum_permutation _ _ (values_permutation corpus d _ Hlook)).
  rewrite Qsum_shares, (length_linked corpus links Hsub).
  rewrite length_fmap, length_map_to_list.
  pose proof (size_links_nonzero links Hne) as HL.
  pose proof (size_corpus_nonzero corpus page links Hpage) as HN.
  field. split; assumption.
Qed.

(** X16. Under the same conditions and for a damping factor between [0] and
    [1], every value of the distribution lies between [0] and [1]. *)
Theorem transition_model_values_in_unit_interval
    (corpus : gmap string (gset string)) (page : string) (damping_factor : Q)
    (links : gset string) :
  corpus !! page = Some links -> links <> ∅ -> links ⊆ dom corpus ->
  0 <= damping_factor <= 1 ->
  exists d,
    transition_model corpus page damping_factor = Ok d
    /\ forall p v, d !! p = Some v -> 0 <= v <= 1.
Proof.
  intros Hpage Hne Hsub [Hd0 Hd1].
  destruct (transition_model_table corpus page damping_factor links
              Hpage Hne Hsub) as (d & Hrun & Hlook).
  exists d. split; [exact Hrun|].
  intros p v Hv. rewrite Hlook in Hv.
  apply fmap_Some in Hv as (w & _ & ->).
  destruct (unit_share (size corpus)) as [Ha0 Ha1].
  { apply (map_size_ne_0_lookup_2 corpus page). rewrite Hpage. eauto. }
  destruct (unit_share (size links)) as [Hb0 Hb1].
  { rewrite size_non_empty_iff. intros Heq. apply Hne.
    by apply leibniz_equiv. }
  set (a := 1 / of_int (size corpus)) in *.
  set (b := 1 / of_int (size links)) in *.
  assert (0 <= (1 - damping_factor) * a <= 1 - damping_factor) by (split; nra).
  assert (0 <= damping_factor * b <= damping_factor) by (split; nra).
  case_decide; split; lra.
Qed.

Lemma transition_model_shares_witness :
  exists d,
    transition_model example_corpus "4.html" 0.85 = Ok d
    /\ dom d = dom example_corpus
    /\ forall p, p ∈ dom example_corpus ->
         d !! p
         = Some (if decide (p ∈ ({["2.html"]} : gset string))
                 then (1 - 0.85) * (1 / of_int (size example_corpus))
                      + 0.85 * (1 / of_int (size ({["2.html"]} : gset string)))
                 else (1 - 0.85) * (1 / of_int (size example_corpus))).
Proof.
  exact (transition_model_shares example_corpus "4.html" 0.85 {["2.html"]}
           example_page example_links_nonempty example_links_known).
Defined.

Lemma transition_model_sums_to_one_witness :
  exists d,
    transition_model example_corpus "4.html" 0.85 = Ok d
    /\ total_probability d == 1.
Proof.
  exact (transition_model_sums_to_one example_corpus "4.html" 0.85 {["2.html"]}
           example_page example_links_nonempty example_links_known).
Defined.

Lemma transition_model_values_in_unit_interval_witness :
  exists d,
    transition_model example_corpus "4.html" 0.85 = Ok d
    /\ forall p v, d !! p = Some v -> 0 <= v <= 1.
Proof.
  apply (transition_model_values_in_unit_interval example_corpus "4.html" 0.85
           {["2.html"]} example_page example_links_nonempty example_links_known).
  split; discriminate.
Defined.

(** ** The order in which [powerset] lists the subsets *)

Section PowersetOrder.

Close Scope Q_scope.

Lemma combinations_all {A} (l : list A) : combinations l (length l) = [l].
Proof.
  induction l as [|x l IH]; [reflexivity|].
  cbn [length]. rewrite combinations_cons, IH.
  rewrite combinations_oversize by lia. reflexivity.
Qed.

Lemma combinations_zero {A} (l : list A) : combinations l 0 = [[]].
Proof. by destruct l. Qed.

Lemma chain_snoc {A} (l : list A) (n : nat) :
  mjoin (combinations l <$> seq 0 (S n))
  = (mjoin (combinations l <$> seq 0 n) ++ combinations l n)%list.
Proof.
  rewrite seq_S, fmap_app, join_app. cbn. rewrite app_nil_r. reflexivity.
Qed.

Lemma same_length_sorted {A} (n : nat) (ks : list (list A)) :
  Forall (fun k => NoDup k /\ length k = n) ks ->
  StronglySorted
    (fun k1 k2 => NoDup k1 /\ NoDup k2 /\ length k1 <= length k2) ks.
Proof.
  induction 1 as [|k ks [Hnd Hlen] Hall IH]; constructor; [exact IH|].
  apply Forall_forall. intros k' Hk'.
  rewrite Forall_forall in Hall. destruct (Hall k' Hk') as [Hnd' Hlen'].
  split_and!; [done | done | lia].
Qed.

Lemma chain_sorted {A} (l : list A) (n : nat) :
  NoDup l ->
  forall a,
    StronglySorted
      (fun k1 k2 => NoDup k1 /\ NoDup k2 /\ length k1 <= length k2)
      (mjoin (combinations l <$> seq a n)).
Proof.
  intros Hl. induction n as [|n IH]; intros a.
  - constructor.
  - rewrite chain_cons. apply StronglySorted_app_2.
    + intros k1 k2 [Hs1 Hlen1]%elem_of_combinations [Hs2 Hlen2]%elem_of_chain.
      split_and!; [by eapply sublist_NoDup | by eapply sublist_NoDup | lia].
    + apply (same_length_sorted a). apply Forall_forall.
      intros k [Hs Hlen]%elem_of_combinations.
      split; [by eapply sublist_NoDup | done].
    + apply IH.
Qed.

End PowersetOrder.

(** X17. [powerset] lists the subsets by size: the empty set comes first,
    the whole set last, and no set comes before a smaller one. *)
Theorem powerset_by_size (s : gset string) :
  head (powerset s) = Some ∅
  /\ last (powerset s) = Some s
  /\ StronglySorted (fun A B : gset string => (size A <= size B)%nat)
       (powerset s).
Proof.
  unfold powerset. split_and!.
  - rewrite Nat.add_1_r, chain_cons, combinations_zero. reflexivity.
  - rewrite Nat.add_1_r, chain_snoc, combinations_all, fmap_last, last_snoc.
    cbn. f_equal. apply list_to_set_elements_L.
  - apply (StronglySorted_fmap list_to_set
             (fun k1 k2 : list string =>
                NoDup k1 /\ NoDup k2 /\ (length k1 <= length k2)%nat)).
    + intros k1 k2 (Hnd1 & Hnd2 & Hlen).
      rewrite !size_list_to_set by done. exact Hlen.
    + apply chain_sorted, NoDup_elements.
Qed.
